(** * Mermaid visualizer: parser, graph model and layout adapter

    A shallow embedding of [src/parsers/mermaid] (class [MermaidParser]),
    [src/types] (the graph model) and [src/layout/elk] (class
    [ELKLayoutEngine]), followed by the properties proved about them.

    Conventions of the embedding.
    - A JavaScript string is the list of its UTF-16 code units ([list N]).
    - A JavaScript number is an integer ([Z]); the only arithmetic the code
      performs is on array indices and lengths, where it is exact.  [NaN]
      and fractions are not represented; of the falsy numbers only [0] is.
    - An optional property ([x?: T]) is an [option].
    - A [Map<string, V>] is an association list in insertion order.
    - A regular expression is a backtracking matcher: the list of all the
      ways it can match a prefix of its input, in the order in which the
      JavaScript engine tries them; a match is the head of that list. *)

From Stdlib Require Import String Ascii List ZArith NArith Bool Lia.
Import ListNotations.

(* ================================================================== *)
(** ** JavaScript strings *)

Module JsString.

Definition str : Type := list N.

(** A literal: the code units of an ASCII string. *)
Definition js (s : string) : str :=
  map N_of_ascii (list_ascii_of_string s).
Arguments js s%_string.

Fixpoint eqb (a b : str) : bool :=
  match a, b with
  | [], [] => true
  | c :: a', d :: b' => N.eqb c d && eqb a' b'
  | _, _ => false
  end.

Definition in_range (lo hi c : N) : bool := (N.leb lo c && N.leb c hi)%bool.

(** [\s] of a regular expression and the characters [trim] strips:
    WhiteSpace and LineTerminator of ECMAScript. *)
Definition is_space (c : N) : bool :=
  (in_range 9 13 c || N.eqb c 32 || N.eqb c 160 || N.eqb c 5760
   || in_range 8192 8202 c || N.eqb c 8232 || N.eqb c 8233
   || N.eqb c 8239 || N.eqb c 8287 || N.eqb c 12288 || N.eqb c 65279)%bool.

(** [\w]: [A-Za-z0-9_]. *)
Definition is_word (c : N) : bool :=
  (in_range 48 57 c || in_range 65 90 c || N.eqb c 95
   || in_range 97 122 c)%bool.

(** A negated one-character class such as [[^\]]]. *)
Definition is_not (d c : N) : bool := negb (N.eqb c d).

Fixpoint trimStart (s : str) : str :=
  match s with
  | c :: s' => if is_space c then trimStart s' else s
  | [] => []
  end.

Definition trimEnd (s : str) : str := rev (trimStart (rev s)).

Definition trim (s : str) : str := trimEnd (trimStart s).

Fixpoint startsWith (s p : str) : bool :=
  match p, s with
  | [], _ => true
  | d :: p', c :: s' => N.eqb c d && startsWith s' p'
  | _ :: _, [] => false
  end.

Definition endsWith (s p : str) : bool := startsWith (rev s) (rev p).

(** [s.slice(start, -from_end)]. *)
Definition slice (s : str) (start from_end : nat) : str :=
  firstn (length s - from_end - start) (skipn start s).

(** [s.split(sep)] for a one-character separator. *)
Fixpoint split (sep : N) (s : str) : list str :=
  match s with
  | [] => [[]]
  | c :: s' =>
      if N.eqb c sep then [] :: split sep s'
      else match split sep s' with
           | l :: ls => (c :: l) :: ls
           | [] => [[c]]
           end
  end.

Definition is_empty (s : str) : bool :=
  match s with [] => true | _ :: _ => false end.

(** Upper-casing of one code unit, for the [i] flag.  Outside ASCII the
    canonicalisation of ECMAScript never maps a character onto an ASCII
    letter, so a pattern of ASCII letters is matched up to ASCII case. *)
Definition upper (c : N) : N :=
  if in_range 97 122 c then (c - 32)%N else c.

Definition LF : N := 10.

End JsString.

Import JsString.

Arguments js s%_string.

(* ================================================================== *)
(** ** Regular expressions as backtracking matchers *)

Module Regex.

(** All the ways of matching a prefix of the input, most preferred
    first; each comes with the value matched and the rest of the input. *)
Definition matcher (A : Type) : Type := str -> list (A * str).

Definition ret {A} (a : A) : matcher A := fun s => [(a, s)].

Definition bind {A B} (m : matcher A) (f : A -> matcher B) : matcher B :=
  fun s => flat_map (fun ar => f (fst ar) (snd ar)) (m s).

(** [r1|r2]: the alternatives of [r1] are tried before those of [r2]. *)
Definition alt {A} (m1 m2 : matcher A) : matcher A :=
  fun s => m1 s ++ m2 s.

(** [(?:r)?], greedy: with [r] first, then without. *)
Definition opt {A} (m : matcher A) : matcher (option A) :=
  fun s => map (fun ar => (Some (fst ar), snd ar)) (m s) ++ [(None, s)].

(** A literal string. *)
Definition lit (p : str) : matcher unit :=
  fun s => if startsWith s p then [(tt, skipn (length p) s)] else [].

(** A literal string under the [i] flag. *)
Definition lit_i (p : str) : matcher unit :=
  fun s => if startsWith (map upper s) (map upper p)
           then [(tt, skipn (length p) s)] else [].

(** [c*], greedy, for a character class [c]: the longest run first. *)
Fixpoint star (c : N -> bool) (s : str) : list (str * str) :=
  match s with
  | x :: s' =>
      if c x
      then map (fun pr => (x :: fst pr, snd pr)) (star c s') ++ [([], s)]
      else [([], s)]
  | [] => [([], [])]
  end.

(** [c+], greedy. *)
Definition plus (c : N -> bool) : matcher str :=
  fun s =>
    match s with
    | x :: s' =>
        if c x then map (fun pr => (x :: fst pr, snd pr)) (star c s')
        else []
    | [] => []
    end.

(** [$] (without the [m] flag): the end of the input. *)
Definition eol : matcher unit :=
  fun s => match s with [] => [(tt, [])] | _ :: _ => [] end.

(** A capturing group [(r)]: the text that [r] consumed. *)
Definition capture {A} (m : matcher A) : matcher str :=
  fun s => map (fun ar => (firstn (length s - length (snd ar)) s, snd ar))
               (m s).

(** [s.match(/^r/)]: a pattern that starts with [^] can only match at
    index 0, and the match is the first success in backtracking order.
    The value is paired with the text after the match. *)
Definition exec {A} (m : matcher A) (s : str) : option (A * str) :=
  match m s with
  | ar :: _ => Some ar
  | [] => None
  end.

Definition groups {A} (m : matcher A) (s : str) : option A :=
  option_map fst (exec m s).

End Regex.

Import Regex.

Notation "x <- m ;; k" := (bind m (fun x => k))
  (at level 61, m at next level, right associativity).
Notation "m1 ;;; m2" := (bind m1 (fun _ => m2))
  (at level 61, right associativity).

(* ================================================================== *)
(** ** The graph model ([src/types]) *)

Inductive Shape : Type := rectangle | circle | diamond | rounded | stadium.

Inductive EdgeType : Type := arrow | dashed | dotted.

Record Point : Type := mkPoint { x : Z; y : Z }.

Record Size : Type := mkSize { width : Z; height : Z }.

Record NodeStyle : Type :=
  mkNodeStyle { fill : option str; stroke : option str;
                strokeWidth : option Z }.

Module GraphNode.
Record t : Type := mk {
    id : str;
    label : str;
    shape : Shape;
    position : option Point;
    size : option Size;
    style : option NodeStyle;
    isDragged : option bool
  }.
End GraphNode.

Module GraphEdge.
Record t : Type := mk {
    id : str;
    from : str;
    to : str;
    label : option str;
    type : option EdgeType;
    points : option (list Point)
  }.
End GraphEdge.

Module Graph.
Record t : Type := mk { nodes : list GraphNode.t; edges : list GraphEdge.t }.
End Graph.

Module LayoutResult.
Record t : Type := mk { graph : Graph.t; bounds : Size }.
End LayoutResult.

Module ParseError.
Record t : Type := mk { message : str }.
End ParseError.

Module ParseResult.
Record t : Type := mk { graph : option Graph.t; error : option ParseError.t }.
End ParseResult.

(* ================================================================== *)
(** ** [Map<string, V>]: an association list in insertion order *)

Module JsMap.
Section WithValue.
Variable V : Type.

Definition t : Type := list (str * V).

Fixpoint get (k : str) (m : t) : option V :=
  match m with
  | [] => None
  | (k', v) :: m' => if JsString.eqb k' k then Some v else get k m'
  end.

Definition has (k : str) (m : t) : bool :=
  match get k m with Some _ => true | None => false end.

(** [m.set(k, v)]: an existing key keeps its place and takes the new
    value; a new key goes to the end. *)
Fixpoint set (k : str) (v : V) (m : t) : t :=
  match m with
  | [] => [(k, v)]
  | (k', v') :: m' =>
      if JsString.eqb k' k then (k', v) :: m'
      else (k', v') :: set k v m'
  end.

Definition keys (m : t) : list str := map fst m.

Definition values (m : t) : list V := map snd m.

(** [new Map(entries)]. *)
Definition of_entries (es : list (str * V)) : t :=
  fold_left (fun m kv => set (fst kv) (snd kv) m) es [].
End WithValue.
Arguments get {V} k m.
Arguments has {V} k m.
Arguments set {V} k v m.
Arguments keys {V} m.
Arguments values {V} m.
Arguments of_entries {V} es.
End JsMap.

(** What a JavaScript computation can throw: an [Error] with its message,
    or any other value. *)
Inductive JsThrown : Type :=
| ErrorObject (message : str)
| OtherValue.

(** A computation that returns or throws. *)
Definition Exc (A : Type) : Type := (JsThrown + A)%type.


(* ================================================================== *)
(** ** The parser ([MermaidParser]) *)

Module MermaidParser.

(** [parseNodeDefinition(id, nodeDef)]. *)
Definition parseNodeDefinition (id nodeDef : str) : GraphNode.t :=
  if startsWith nodeDef (js "[[") && endsWith nodeDef (js "]]") then
    let label := slice nodeDef 2 2 in
    GraphNode.mk id (trim label) rectangle None None None None
  else if startsWith nodeDef (js "[") && endsWith nodeDef (js "]") then
    let label := slice nodeDef 1 1 in
    GraphNode.mk id (trim label) rectangle None None None None
  else if startsWith nodeDef (js "((") && endsWith nodeDef (js "))") then
    let label := slice nodeDef 2 2 in
    GraphNode.mk id (trim label) circle None None None None
  else if startsWith nodeDef (js "{") && endsWith nodeDef (js "}") then
    let label := slice nodeDef 1 1 in
    GraphNode.mk id (trim label) diamond None None None None
  else
    GraphNode.mk id id rectangle None None None None.

(** [{ id, label: id, shape: 'rectangle' }]. *)
Definition defaultNode (id : str) : GraphNode.t :=
  GraphNode.mk id id rectangle None None None None.

(** [/^(graph|flowchart)\s+(TB|TD|BT|RL|LR)\s*\n?/i]. *)
Definition declaration : matcher unit :=
  capture (alt (lit_i (js "graph")) (lit_i (js "flowchart"))) ;;;
  plus is_space ;;;
  capture (alt (lit_i (js "TB")) (alt (lit_i (js "TD")) (alt (lit_i (js "BT"))
          (alt (lit_i (js "RL")) (lit_i (js "LR")))))) ;;;
  star is_space ;;;
  opt (lit [LF]) ;;;
  ret tt.

(** [cleanMermaidCode(code)]: [code.replace(declaration, '').trim()]. *)
Definition cleanMermaidCode (code : str) : str :=
  trim (match exec declaration code with
        | Some (_, rest) => rest
        | None => code
        end).

(** [(\[[^\]]+\]|\(\([^\)]+\)\)|\{[^}]+\})]. *)
Definition bracketForm : matcher str :=
  capture
    (alt (lit (js "[") ;;; plus (is_not 93) ;;; lit (js "]"))
    (alt (lit (js "((") ;;; plus (is_not 41) ;;; lit (js "))"))
         (lit (js "{") ;;; plus (is_not 125) ;;; lit (js "}")))).

(** [(?:\|([^\|]+)\|)?]. *)
Definition edgeLabel : matcher (option str) :=
  opt (lit (js "|") ;;; label <- capture (plus (is_not 124)) ;;
       lit (js "|") ;;; ret label).

(** [/^(\w+)(\[[^\]]+\]|\(\([^\)]+\)\)|\{[^}]+\})$/]. *)
Definition nodeMatch : matcher (str * str) :=
  id <- capture (plus is_word) ;;
  nodeDef <- bracketForm ;;
  eol ;;;
  ret (id, nodeDef).

(** [/^(\w+)(\[[^\]]+\]|\(\([^\)]+\)\)|\{[^}]+\})\s*-->\s*(\w+)(\[[^\]]+\]|\(\([^\)]+\)\)|\{[^}]+\})(?:\|([^\|]+)\|)?/]. *)
Definition edgeWithNodesMatch
  : matcher (str * str * str * str * option str) :=
  fromId <- capture (plus is_word) ;;
  fromNodeDef <- bracketForm ;;
  star is_space ;;; lit (js "-->") ;;; star is_space ;;;
  toId <- capture (plus is_word) ;;
  toNodeDef <- bracketForm ;;
  label <- edgeLabel ;;
  ret (fromId, fromNodeDef, toId, toNodeDef, label).

(** [/^(\w+)\s*-->\s*\|([^\|]+)\|\s*(\w+)(\[[^\]]+\]|\(\([^\)]+\)\)|\{[^}]+\})$/]. *)
Definition edgeWithLabelAndNodeMatch : matcher (str * str * str * str) :=
  from <- capture (plus is_word) ;;
  star is_space ;;; lit (js "-->") ;;; star is_space ;;;
  lit (js "|") ;;; label <- capture (plus (is_not 124)) ;; lit (js "|") ;;;
  star is_space ;;;
  toId <- capture (plus is_word) ;;
  toNodeDef <- bracketForm ;;
  eol ;;;
  ret (from, label, toId, toNodeDef).

(** [/^(\w+)\s*-->\s*(\w+)(?:\|([^\|]+)\|)?/]. *)
Definition edgeWithLabelMatch : matcher (str * str * option str) :=
  from <- capture (plus is_word) ;;
  star is_space ;;; lit (js "-->") ;;; star is_space ;;;
  to <- capture (plus is_word) ;;
  label <- edgeLabel ;;
  ret (from, to, label).

(** [/^(\w+)\s*-\.\->\s*(\w+)(?:\|([^\|]+)\|)?/]. *)
Definition dashedEdgeMatch : matcher (str * str * option str) :=
  from <- capture (plus is_word) ;;
  star is_space ;;; lit (js "-.->") ;;; star is_space ;;;
  to <- capture (plus is_word) ;;
  label <- edgeLabel ;;
  ret (from, to, label).

(** The id of an edge: [`${from}-${to}`]. *)
Definition edgeId (from to : str) : str := from ++ js "-" ++ to.

Definition mkEdge (from to : str) (label : option str) (ty : EdgeType)
  : GraphEdge.t :=
  GraphEdge.mk (edgeId from to) from to label (Some ty) None.

(** [if (!nodes.has(id)) nodes.set(id, { id, label: id, shape: 'rectangle' })]. *)
Definition ensureNode (id : str) (nodes : JsMap.t GraphNode.t)
  : JsMap.t GraphNode.t :=
  if JsMap.has id nodes then nodes else JsMap.set id (defaultNode id) nodes.

(** The state of the loop of [parseFlowchartContent]: the node registry and
    the edges pushed so far. *)
Definition ParseState : Type := (JsMap.t GraphNode.t * list GraphEdge.t)%type.

(** One iteration of the loop over the lines. *)
Definition processLine (st : ParseState) (line : str) : ParseState :=
  let (nodes, edges) := st in
  match groups nodeMatch line with
  | Some (id, nodeDef) =>
      (JsMap.set id (parseNodeDefinition id nodeDef) nodes, edges)
  | None =>
  match groups edgeWithNodesMatch line with
  | Some (fromId, fromNodeDef, toId, toNodeDef, label) =>
      let nodes := JsMap.set fromId (parseNodeDefinition fromId fromNodeDef) nodes in
      let nodes := JsMap.set toId (parseNodeDefinition toId toNodeDef) nodes in
      (nodes, edges ++ [mkEdge fromId toId (option_map trim label) arrow])
  | None =>
  match groups edgeWithLabelAndNodeMatch line with
  | Some (from, label, toId, toNodeDef) =>
      let nodes := ensureNode from nodes in
      let nodes := JsMap.set toId (parseNodeDefinition toId toNodeDef) nodes in
      (nodes, edges ++ [mkEdge from toId (Some (trim label)) arrow])
  | None =>
  match groups edgeWithLabelMatch line with
  | Some (from, to, label) =>
      let nodes := ensureNode from nodes in
      let nodes := ensureNode to nodes in
      (nodes, edges ++ [mkEdge from to (option_map trim label) arrow])
  | None =>
  match groups dashedEdgeMatch line with
  | Some (from, to, label) =>
      let nodes := ensureNode from nodes in
      let nodes := ensureNode to nodes in
      (nodes, edges ++ [mkEdge from to (option_map trim label) dashed])
  | None => (nodes, edges)
  end end end end end.

(** [code.split('\n').map(line => line.trim())
        .filter(line => line && !line.startsWith('%%'))]. *)
Definition contentLines (code : str) : list str :=
  filter (fun line => negb (is_empty line) && negb (startsWith line (js "%%")))
         (map trim (split LF code)).

Definition runLines (lines : list str) : ParseState :=
  fold_left processLine lines ([], []).

(** [parseFlowchartContent(code)]. *)
Definition parseFlowchartContent (code : str)
  : list GraphNode.t * list GraphEdge.t :=
  let (nodes, edges) := runLines (contentLines code) in
  (JsMap.values nodes, edges).

Section Parse.

(** The body of [parse] runs inside [try]; the section takes the call to
    [parseFlowchartContent] as a computation that may throw, so that the
    [catch] clause is part of the model. *)
Variable content : str -> Exc (list GraphNode.t * list GraphEdge.t).

Definition parseBody (mermaidCode : str) : Exc ParseResult.t :=
  if is_empty (trim mermaidCode) then
    inr (ParseResult.mk None (Some (ParseError.mk (js "Empty Mermaid code"))))
  else
    let cleanCode := cleanMermaidCode mermaidCode in
    match content cleanCode with
    | inl thrown => inl thrown
    | inr (nodes, edges) =>
        inr (ParseResult.mk (Some (Graph.mk nodes edges)) None)
    end.

Definition parseWith (mermaidCode : str) : ParseResult.t :=
  match parseBody mermaidCode with
  | inr result => result
  | inl (ErrorObject message) =>
      ParseResult.mk None (Some (ParseError.mk message))
  | inl OtherValue =>
      ParseResult.mk None (Some (ParseError.mk (js "Unknown parsing error")))
  end.

End Parse.

(** [MermaidParser.parse(mermaidCode)]. *)
Definition parse (mermaidCode : str) : ParseResult.t :=
  parseWith (fun code => inr (parseFlowchartContent code)) mermaidCode.

End MermaidParser.

Import MermaidParser.

(** Lines of text joined by line feeds. *)
Definition text (lines : list str) : str :=
  match lines with
  | [] => []
  | l :: ls => l ++ flat_map (fun l' => LF :: l') ls
  end.

(* ================================================================== *)
(** ** The layout adapter ([ELKLayoutEngine]) *)

(** The graph handed to [elk.layout]. *)
Module ElkNode.
Record t : Type := mk {
  id : str;
  label : str;
  width : Z;
  height : Z;
  x : option Z;
  y : option Z;
  (** [layoutOptions]: [Some [('elk.position', 'fixed')]] or [undefined]. *)
  layoutOptions : option (list (string * string));
  shape : Shape
}.
End ElkNode.

Module ElkLabel.
Record t : Type := mk { text : str; layoutOptions : list (string * string) }.
End ElkLabel.

Module ElkEdge.
Record t : Type := mk {
  id : str;
  sources : list str;
  targets : list str;
  labels : list ElkLabel.t
}.
End ElkEdge.

Module ElkGraph.
Record t : Type := mk {
  id : string;
  layoutOptions : list (string * string);
  children : list ElkNode.t;
  edges : list ElkEdge.t
}.
End ElkGraph.

(** What [elk.layout] resolves to.  The code reads it as [any]: every
    property it reads may be missing.  The engine returns the edges with
    the [sources] and [targets] arrays it was given, so these are non-empty
    when present; reading index 0 of a missing array throws. *)
Module ElkOutNode.
Record t : Type := mk {
  id : str;
  label : option str;
  shape : option Shape;
  x : option Z;
  y : option Z;
  width : option Z;
  height : option Z
}.
End ElkOutNode.

Module ElkOutEdge.
Record t : Type := mk {
  id : str;
  sources : option (str * list str);
  targets : option (str * list str);
  labels : list str;
  (** [sections[i].bendPoints], each possibly missing. *)
  sections : list (option (list Point))
}.
End ElkOutEdge.

Module ElkOutGraph.
Record t : Type := mk {
  children : option (list ElkOutNode.t);
  edges : option (list ElkOutEdge.t);
  width : option Z;
  height : option Z
}.
End ElkOutGraph.

(** An [async] function with one kind of suspension point, the call of
    [elk.layout]: it resolves, rejects, awaits the engine and continues
    with what the engine's promise settles to, or logs a warning and
    continues. *)
Inductive Async (A : Type) : Type :=
| Resolve (a : A)
| Reject (thrown : JsThrown)
| AwaitLayout (elkGraph : ElkGraph.t) (k : Exc ElkOutGraph.t -> Async A)
| Warn (thrown : JsThrown) (k : Async A).

Arguments Resolve {A} a.
Arguments Reject {A} thrown.
Arguments AwaitLayout {A} elkGraph k.
Arguments Warn {A} thrown k.

(** An external engine: what its promise settles to on a given graph. *)
Definition Engine : Type := ElkGraph.t -> Exc ElkOutGraph.t.

(** What the promise of an [async] function settles to, under an engine. *)
Fixpoint settle {A} (engine : Engine) (p : Async A) : Exc A :=
  match p with
  | Resolve a => inr a
  | Reject thrown => inl thrown
  | AwaitLayout elkGraph k => settle engine (k (engine elkGraph))
  | Warn _ k => settle engine k
  end.

(** The graphs on which the engine is invoked, in order. *)
Fixpoint engineCalls {A} (engine : Engine) (p : Async A) : list ElkGraph.t :=
  match p with
  | Resolve _ | Reject _ => []
  | AwaitLayout elkGraph k => elkGraph :: engineCalls engine (k (engine elkGraph))
  | Warn _ k => engineCalls engine k
  end.

(** The warnings logged, in order. *)
Fixpoint warnings {A} (engine : Engine) (p : Async A) : list JsThrown :=
  match p with
  | Resolve _ | Reject _ => []
  | AwaitLayout elkGraph k => warnings engine (k (engine elkGraph))
  | Warn thrown k => thrown :: warnings engine k
  end.

Module ELKLayoutEngine.

(** [v || d] on an optional number: [undefined] and [0] are falsy. *)
Definition numOr (v : option Z) (d : Z) : Z :=
  match v with
  | Some z => if Z.eqb z 0 then d else z
  | None => d
  end.

(** [v || d] on an optional string: [undefined] and [''] are falsy. *)
Definition strOr (v : option str) (d : str) : str :=
  match v with
  | Some (c :: s) => c :: s
  | _ => d
  end.

(** Truthiness of the optional flag [isDragged]. *)
Definition truthy (b : option bool) : bool :=
  match b with Some true => true | _ => false end.

(** [getDefaultNodeSize(shape)]. *)
Definition getDefaultNodeSize (shape : Shape) : Size :=
  match shape with
  | circle => mkSize 80 80
  | diamond => mkSize 100 80
  | _ => mkSize 120 60
  end.

Definition rootLayoutOptions : list (string * string) :=
  [ ("elk.algorithm", "layered");
    ("elk.layered.spacing.nodeNodeBetweenLayers", "100");
    ("elk.layered.spacing.nodeNode", "80");
    ("elk.direction", "DOWN");
    ("elk.padding", "[top=50,left=50,bottom=50,right=50]");
    ("elk.layered.thoroughness", "7");
    ("elk.layered.unnecessaryBendpoints", "false") ]%string.

(** The element of [children] built for one node. *)
Definition toELKNode (node : GraphNode.t) : ElkNode.t :=
  let pinned := truthy (GraphNode.isDragged node) in
  ElkNode.mk
    (GraphNode.id node)
    (GraphNode.label node)
    (numOr (option_map width (GraphNode.size node))
           (width (getDefaultNodeSize (GraphNode.shape node))))
    (numOr (option_map height (GraphNode.size node))
           (height (getDefaultNodeSize (GraphNode.shape node))))
    (if pinned then option_map x (GraphNode.position node) else None)
    (if pinned then option_map y (GraphNode.position node) else None)
    (if pinned then Some [("elk.position", "fixed")%string] else None)
    (GraphNode.shape node).

(** The element of [edges] built for one edge; an empty label is falsy. *)
Definition toELKEdge (edge : GraphEdge.t) : ElkEdge.t :=
  ElkEdge.mk
    (GraphEdge.id edge)
    [GraphEdge.from edge]
    [GraphEdge.to edge]
    (match GraphEdge.label edge with
     | Some (c :: s) =>
         [ElkLabel.mk (c :: s)
            [("elk.edge.labels.placement", "CENTER")%string]]
     | _ => []
     end).

(** [convertToELKGraph(graph)]. *)
Definition convertToELKGraph (graph : Graph.t) : ElkGraph.t :=
  ElkGraph.mk "root" rootLayoutOptions
    (map toELKNode (Graph.nodes graph))
    (map toELKEdge (Graph.edges graph)).

(** The node rebuilt from one returned child. *)
Definition fromELKNode (originalNodes : JsMap.t GraphNode.t)
    (child : ElkOutNode.t) : GraphNode.t :=
  let originalNode := JsMap.get (ElkOutNode.id child) originalNodes in
  GraphNode.mk
    (ElkOutNode.id child)
    (strOr (ElkOutNode.label child) (ElkOutNode.id child))
    (match ElkOutNode.shape child with
     | Some s => s
     | None => match originalNode with
               | Some n => GraphNode.shape n
               | None => rectangle
               end
     end)
    (Some (mkPoint (numOr (ElkOutNode.x child) 0)
                   (numOr (ElkOutNode.y child) 0)))
    (Some (mkSize (numOr (ElkOutNode.width child) 120)
                  (numOr (ElkOutNode.height child) 60)))
    None
    (Some (match originalNode with
           | Some n => truthy (GraphNode.isDragged n)
           | None => false
           end)).

Definition typeError : JsThrown :=
  ErrorObject (js "Cannot read properties of undefined (reading '0')").

(** The edge rebuilt from one returned edge; throws when [sources] or
    [targets] is missing. *)
Definition fromELKEdge (edge : ElkOutEdge.t) : Exc GraphEdge.t :=
  match ElkOutEdge.sources edge, ElkOutEdge.targets edge with
  | Some (source, _), Some (target, _) =>
      inr (GraphEdge.mk
             (ElkOutEdge.id edge) source target
             (hd_error (ElkOutEdge.labels edge))
             None
             (Some (match ElkOutEdge.sections edge with
                    | Some bendPoints :: _ => bendPoints
                    | _ => []
                    end)))
  | _, _ => inl typeError
  end.

(** [array.map(f)] for an [f] that may throw: stops at the first throw. *)
Fixpoint mapExc {A B} (f : A -> Exc B) (l : list A) : Exc (list B) :=
  match l with
  | [] => inr []
  | a :: l' =>
      match f a with
      | inl thrown => inl thrown
      | inr b => match mapExc f l' with
                 | inl thrown => inl thrown
                 | inr bs => inr (b :: bs)
                 end
      end
  end.

(** [convertFromELKGraph(elkGraph, originalNodes)]. *)
Definition convertFromELKGraph (elkGraph : ElkOutGraph.t)
    (originalNodes : JsMap.t GraphNode.t) : Exc Graph.t :=
  let nodes :=
    match ElkOutGraph.children elkGraph with
    | Some children => map (fromELKNode originalNodes) children
    | None => []
    end in
  match (match ElkOutGraph.edges elkGraph with
         | Some edges => mapExc fromELKEdge edges
         | None => inr []
         end) with
  | inl thrown => inl thrown
  | inr edges => inr (Graph.mk nodes edges)
  end.

(** [array.map((a, index) => f a index)], from a starting index. *)
Fixpoint mapIndexed {A B} (f : A -> nat -> B) (index : nat) (l : list A)
  : list B :=
  match l with
  | [] => []
  | a :: l' => f a index :: mapIndexed f (S index) l'
  end.

(** [Math.ceil(a / b)] for [b > 0]. *)
Definition ceilDiv (a b : Z) : Z := (- ((- a) / b))%Z.

(** [fallbackLayout(graph)]. *)
Definition fallbackLayout (graph : Graph.t) : LayoutResult.t :=
  let nodeWidth := 120%Z in
  let nodeHeight := 60%Z in
  let horizontalSpacing := 150%Z in
  let verticalSpacing := 100%Z in
  let nodesPerRow := 4%Z in
  let nodes :=
    mapIndexed
      (fun node index =>
         GraphNode.mk
           (GraphNode.id node) (GraphNode.label node) (GraphNode.shape node)
           (Some (mkPoint
                    ((Z.of_nat index mod nodesPerRow) * horizontalSpacing + 50)
                    ((Z.of_nat index / nodesPerRow) * verticalSpacing + 50)))
           (Some (mkSize nodeWidth nodeHeight))
           (GraphNode.style node) (GraphNode.isDragged node))
      0 (Graph.nodes graph) in
  let maxRow := ceilDiv (Z.of_nat (length (Graph.nodes graph))) nodesPerRow in
  let bounds := mkSize (nodesPerRow * horizontalSpacing + 100)
                       (maxRow * verticalSpacing + 100) in
  LayoutResult.mk (Graph.mk nodes (Graph.edges graph)) bounds.

(** The body of the [try] block once the engine's promise has settled. *)
Definition tryBlock (settled : Exc ElkOutGraph.t)
    (originalNodes : JsMap.t GraphNode.t) : Exc LayoutResult.t :=
  match settled with
  | inl thrown => inl thrown
  | inr layoutedGraph =>
      match convertFromELKGraph layoutedGraph originalNodes with
      | inl thrown => inl thrown
      | inr result =>
          inr (LayoutResult.mk result
                 (mkSize (numOr (ElkOutGraph.width layoutedGraph) 800)
                         (numOr (ElkOutGraph.height layoutedGraph) 600)))
      end
  end.

(** [new Map(graph.nodes.map(node => [node.id, node]))]. *)
Definition originalNodesOf (graph : Graph.t) : JsMap.t GraphNode.t :=
  JsMap.of_entries (map (fun node => (GraphNode.id node, node))
                        (Graph.nodes graph)).

(** [ELKLayoutEngine.layout(graph)]. *)
Definition layout (graph : Graph.t) : Async LayoutResult.t :=
  if Nat.eqb (length (Graph.nodes graph)) 0 then
    Resolve (LayoutResult.mk (Graph.mk [] []) (mkSize 800 600))
  else
    let originalNodes := originalNodesOf graph in
    let elkGraph := convertToELKGraph graph in
    AwaitLayout elkGraph (fun settled =>
      match tryBlock settled originalNodes with
      | inr result => Resolve result
      | inl error => Warn error (Resolve (fallbackLayout graph))
      end).

End ELKLayoutEngine.

Import ELKLayoutEngine.

(* ================================================================== *)
(** ** Reading the lines as registry operations

    What a line does to the node registry, read off the matcher that
    consumes it: it overwrites a node from a bracket form, or makes sure a
    node exists.  Used to state how declarations of one id merge. *)

Inductive RegistryOp : Type :=
| Overwrite (id nodeDef : str)   (* nodes.set(id, parseNodeDefinition(id, nodeDef)) *)
| Ensure (id : str).           (* if (!nodes.has(id)) nodes.set(id, default) *)

Definition opId (op : RegistryOp) : str :=
  match op with Overwrite id _ => id | Ensure id => id end.

Definition applyOp (nodes : JsMap.t GraphNode.t) (op : RegistryOp)
  : JsMap.t GraphNode.t :=
  match op with
  | Overwrite id nodeDef => JsMap.set id (parseNodeDefinition id nodeDef) nodes
  | Ensure id => ensureNode id nodes
  end.

(** The registry operations of one line, in the order the code runs them. *)
Definition lineOps (line : str) : list RegistryOp :=
  match groups nodeMatch line with
  | Some (id, nodeDef) => [Overwrite id nodeDef]
  | None =>
  match groups edgeWithNodesMatch line with
  | Some (fromId, fromNodeDef, toId, toNodeDef, _) =>
      [Overwrite fromId fromNodeDef; Overwrite toId toNodeDef]
  | None =>
  match groups edgeWithLabelAndNodeMatch line with
  | Some (from, _, toId, toNodeDef) => [Ensure from; Overwrite toId toNodeDef]
  | None =>
  match groups edgeWithLabelMatch line with
  | Some (from, to, _) => [Ensure from; Ensure to]
  | None =>
  match groups dashedEdgeMatch line with
  | Some (from, to, _) => [Ensure from; Ensure to]
  | None => []
  end end end end end.

(** The ids of a sequence, each kept at its first occurrence. *)
Definition firstOccurrences (ids : list str) : list str :=
  fold_left (fun seen id => if existsb (JsString.eqb id) seen then seen
                            else seen ++ [id]) ids [].

(** The bracket form of the last declaration of [id], if there is one. *)
Definition lastDeclared (id : str) (ops : list RegistryOp) : option str :=
  fold_left (fun last op =>
               match op with
               | Overwrite id' nodeDef =>
                   if JsString.eqb id' id then Some nodeDef else last
               | Ensure _ => last
               end) ops None.

(** The node that a sequence of operations leaves under [id]: decoded from
    the last bracket form declared for it, or the default node when the id
    was only ever ensured. *)
Definition mergedNode (id : str) (ops : list RegistryOp) : GraphNode.t :=
  match lastDeclared id ops with
  | Some nodeDef => parseNodeDefinition id nodeDef
  | None => defaultNode id
  end.

(** A predicate on results: exactly one of the two fields is populated. *)
Definition exactlyOne (r : ParseResult.t) : Prop :=
  (exists g, ParseResult.graph r = Some g /\ ParseResult.error r = None) \/
  (exists e, ParseResult.graph r = None /\ ParseResult.error r = Some e).

(** The message that the [catch] clause of [parse] reports. *)
Definition caughtMessage (thrown : JsThrown) : str :=
  match thrown with
  | ErrorObject message => message
  | OtherValue => js "Unknown parsing error"
  end.

(** Concrete inputs used below. *)
Definition pinnedNode : GraphNode.t :=
  GraphNode.mk (js "A") (js "A") rectangle (Some (mkPoint 500 500)) None None
               (Some true).

Definition pinnedGraph : Graph.t := Graph.mk [pinnedNode] [].

Definition failingEngine : Engine := fun _ => inl OtherValue.

(** An engine that positions the boxes it is given: it returns every child
    under its id with coordinates of its choice (the fixed ones kept), and
    either carries the extra [shape] property along or drops it. *)
Definition positions (child : ElkNode.t) (out : ElkOutNode.t) : Prop :=
  ElkOutNode.id out = ElkNode.id child /\
  (ElkOutNode.shape out = Some (ElkNode.shape child) \/
   ElkOutNode.shape out = None).

(** A graph of two shapes, and children as an engine may return them for
    it: A moved and resized with its [shape] carried along, B moved with
    its [shape] dropped. *)
Definition roundTripGraph : Graph.t :=
  Graph.mk
    [GraphNode.mk (js "A") (js "Go") circle None None None None;
     GraphNode.mk (js "B") (js "Ok?") diamond None None None None]
    [mkEdge (js "A") (js "B") None arrow].

Definition roundTripReturned : list ElkOutNode.t :=
  [ElkOutNode.mk (js "A") (Some (js "Go")) (Some circle)
     (Some 50%Z) (Some 50%Z) (Some 80%Z) (Some 80%Z);
   ElkOutNode.mk (js "B") (Some (js "Ok?")) None
     (Some 40%Z) (Some 230%Z) (Some 100%Z) (Some 80%Z)].

(** The invariant of the loop of [parseFlowchartContent]: every node is
    registered under its own id, and both endpoints of every edge pushed so
    far are registered. *)
Definition wellFormed (st : ParseState) : Prop :=
  (forall k v, In (k, v) (fst st) -> GraphNode.id v = k) /\
  (forall e, In e (snd st) ->
             JsMap.has (GraphEdge.from e) (fst st) = true /\
             JsMap.has (GraphEdge.to e) (fst st) = true).

(** A diagram with a header, a comment, every kind of edge line and a
    repeated declaration. *)
Definition sampleCode : str :=
  text [js "graph TD"; js "  A[Start] --> B{Decision}";
        js "%% a comment"; js "B -->|Yes| C((Go))"; js "B --> D";
        js "D -.-> E|later|"; js "A[Begin]"].

(** The diagram the application starts with (the initial state of
    [mermaidCode] in [App]). *)
Definition defaultDiagram : str :=
  text [js "graph TD";
        js "    A[Start] --> B{Decision}";
        js "    B -->|Yes| C[Process A]";
        js "    B -->|No| D[Process B]";
        js "    C --> E[End]";
        js "    D --> E"].

(** One id declared twice, with an edge in between. *)
Definition mergeCode : str :=
  text [js "A[First]"; js "A-->B"; js "A[Second]"].

(** The input starts with a character of the class. *)
Definition startsIn (c : N -> bool) (s : str) : bool :=
  match s with x :: _ => c x | [] => false end.

(** An identifier: a non-empty run of [\w]. *)
Definition isId (s : str) : Prop :=
  s <> [] /\ Forall (fun c => is_word c = true) s.

(** A possibly empty run of [\s]. *)
Definition isSpaces (s : str) : Prop := Forall (fun c => is_space c = true) s.

(** The characters that open a bracket form: [[], [(] and [{]. *)
Definition isOpen (c : N) : bool := N.eqb c 91 || N.eqb c 40 || N.eqb c 123.

(** The line [<from> --> <to><trail>]. *)
Definition edgeLine (from ws1 ws2 to trail : str) : str :=
  from ++ ws1 ++ js "-->" ++ ws2 ++ to ++ trail.

(** What the round trip is asked to preserve of a node. *)
Definition idAndShape (node : GraphNode.t) : str * Shape :=
  (GraphNode.id node, GraphNode.shape node).

(* ================================================================== *)
(** ** The drag handler of the application ([App]) *)

Module App.

(** The state update of [handleNodeDrag(nodeId, position)], applied to the
    laid-out graph:
    [prev => ({ ...prev, nodes: prev.nodes.map(node =>
       node.id === nodeId ? { ...node, position, isDragged: true } : node) })]. *)
Definition handleNodeDrag (nodeId : str) (position : Point) (prev : Graph.t)
  : Graph.t :=
  Graph.mk
    (map (fun node =>
            if JsString.eqb (GraphNode.id node) nodeId
            then GraphNode.mk (GraphNode.id node) (GraphNode.label node)
                   (GraphNode.shape node) (Some position)
                   (GraphNode.size node) (GraphNode.style node) (Some true)
            else node)
         (Graph.nodes prev))
    (Graph.edges prev).

End App.

(* ================================================================== *)
(** ** The forms of a line *)

(** The text between brackets: non-empty, without the closing character. *)
Definition bracketBody (close : N) (t : str) : Prop :=
  t <> [] /\ Forall (fun c => is_not close c = true) t.

(** The three bracket forms of the line patterns. *)
Inductive BracketForm : str -> Prop :=
| SquareForm (t : str) :
    bracketBody 93 t -> BracketForm (js "[" ++ t ++ js "]")
| RoundForm (t : str) :
    bracketBody 41 t -> BracketForm (js "((" ++ t ++ js "))")
| CurlyForm (t : str) :
    bracketBody 125 t -> BracketForm (js "{" ++ t ++ js "}").

(** An optional trailing label [|text|]. *)
Definition labelText (label : option str) : str :=
  match label with
  | Some l => js "|" ++ l ++ js "|"
  | None => []
  end.

(** What may follow a bracket form where a label is optional: a label and
    then anything, or something that does not start a label. *)
Definition labelFollows (label : option str) (trail : str) : Prop :=
  match label with
  | Some l => bracketBody 124 l
  | None => startsIn (N.eqb 124) trail = false
  end.

(** What may follow the second id of a plain or dashed edge: the same,
    provided it does not continue the id. *)
Definition edgeTail (label : option str) (trail : str) : Prop :=
  labelFollows label trail /\
  startsIn is_word (labelText label ++ trail) = false.

(** The line [<from> --> <to>|label|<trail>]. *)
Definition plainLine (from ws1 ws2 to : str) (label : option str)
    (trail : str) : str :=
  from ++ ws1 ++ js "-->" ++ ws2 ++ to ++ labelText label ++ trail.

(** The line [<from> -.-> <to>|label|<trail>]. *)
Definition dashedLine (from ws1 ws2 to : str) (label : option str)
    (trail : str) : str :=
  from ++ ws1 ++ js "-.->" ++ ws2 ++ to ++ labelText label ++ trail.

(** The line [<from> -->|label| <to><toDef>]. *)
Definition labelledLine (from ws1 ws2 label ws3 to toDef : str) : str :=
  from ++ ws1 ++ js "-->" ++ ws2 ++ js "|" ++ label ++ js "|" ++ ws3 ++
  to ++ toDef.

(** The line [<from><fromDef> --> <to><toDef>|label|<trail>]. *)
Definition nodesLine (from fromDef ws1 ws2 to toDef : str)
    (label : option str) (trail : str) : str :=
  from ++ fromDef ++ ws1 ++ js "-->" ++ ws2 ++ to ++ toDef ++
  labelText label ++ trail.

(** The keyword and the direction of a diagram declaration, in any case. *)
Definition isKeyword (kw : str) : Prop :=
  map upper kw = js "GRAPH" \/ map upper kw = js "FLOWCHART".

Definition isDirection (dir : str) : Prop :=
  In (map upper dir) [js "TB"; js "TD"; js "BT"; js "RL"; js "LR"].

(** An engine result whose children are the given children, each under its
    id, with the coordinates that were fixed left as they were. *)
Definition honoursPins (child : ElkNode.t) (out : ElkOutNode.t) : Prop :=
  ElkOutNode.id out = ElkNode.id child /\
  (forall v, ElkNode.x child = Some v -> ElkOutNode.x out = Some v) /\
  (forall v, ElkNode.y child = Some v -> ElkOutNode.y out = Some v).

(** An engine that returns the edges it was given, under their ids, with
    the same first source and target. *)
Definition echoesEdge (edge : ElkEdge.t) (out : ElkOutEdge.t) : Prop :=
  ElkOutEdge.id out = ElkEdge.id edge /\
  option_map fst (ElkOutEdge.sources out) = hd_error (ElkEdge.sources edge) /\
  option_map fst (ElkOutEdge.targets out) = hd_error (ElkEdge.targets edge).

(** A node as the parser builds it: no position, size, style or pin. *)
Definition unplaced (n : GraphNode.t) : Prop :=
  GraphNode.position n = None /\ GraphNode.size n = None /\
  GraphNode.style n = None /\ GraphNode.isDragged n = None.

(** An edge as the parser builds it: named after its endpoints, of type
    arrow or dashed, without routing points. *)
Definition parsedEdge (e : GraphEdge.t) : Prop :=
  GraphEdge.id e = GraphEdge.from e ++ js "-" ++ GraphEdge.to e /\
  GraphEdge.points e = None /\
  (GraphEdge.type e = Some arrow \/ GraphEdge.type e = Some dashed).

(** An engine that returns what it is given: every child under its id
    with its label, shape and size, at its fixed coordinates or else at
    (50, 50), and every edge with its sources, targets and label texts. *)
Definition echoResult (elkGraph : ElkGraph.t) : ElkOutGraph.t :=
  ElkOutGraph.mk
    (Some (map (fun c =>
                  ElkOutNode.mk (ElkNode.id c) (Some (ElkNode.label c))
                    (Some (ElkNode.shape c))
                    (Some (match ElkNode.x c with
                           | Some v => v | None => 50%Z end))
                    (Some (match ElkNode.y c with
                           | Some v => v | None => 50%Z end))
                    (Some (ElkNode.width c)) (Some (ElkNode.height c)))
               (ElkGraph.children elkGraph)))
    (Some (map (fun e =>
                  ElkOutEdge.mk (ElkEdge.id e)
                    (match ElkEdge.sources e with
                     | s :: l => Some (s, l) | [] => None end)
                    (match ElkEdge.targets e with
                     | t :: l => Some (t, l) | [] => None end)
                    (map ElkLabel.text (ElkEdge.labels e)) [])
               (ElkGraph.edges elkGraph)))
    (Some 800%Z) (Some 600%Z).

Definition echoEngine : Engine := fun elkGraph => inr (echoResult elkGraph).

(** The identity and the endpoints of an edge. *)
Definition edgeEnds (e : GraphEdge.t) : str * str * str :=
  (GraphEdge.id e, GraphEdge.from e, GraphEdge.to e).

(** A result edge that cannot be read: [sources] or [targets] is missing. *)
Definition unreadable (e : ElkOutEdge.t) : Prop :=
  ElkOutEdge.sources e = None \/ ElkOutEdge.targets e = None.

(** A diagram with a dashed edge. *)
Definition dashedGraph : Graph.t :=
  Graph.mk [defaultNode (js "A"); defaultNode (js "B")]
           [mkEdge (js "A") (js "B") (Some (js "later")) dashed].

(* ================================================================== *)
(** ** The edge guard of the renderers ([SVGRenderer], [EnhancedSVGRenderer]) *)

Module SVGRenderer.

(** [graph.nodes.find(n => n.id === id)]. *)
Definition findNode (graph : Graph.t) (id : str) : option GraphNode.t :=
  find (fun n => JsString.eqb (GraphNode.id n) id) (Graph.nodes graph).

(** The part of [renderEdge(edge)] that decides whether the edge is drawn
    and between which points: [null] when an endpoint is not found or has
    no position, else the line from the position of the source to the
    position of the target.  The markup built around the line is not
    modelled. *)
Definition renderEdgeLine (graph : Graph.t) (edge : GraphEdge.t)
  : option (Point * Point) :=
  let fromNode := findNode graph (GraphEdge.from edge) in
  let toNode := findNode graph (GraphEdge.to edge) in
  match fromNode, toNode with
  | Some f, Some t =>
      match GraphNode.position f, GraphNode.position t with
      | Some pf, Some pt => Some (pf, pt)
      | _, _ => None
      end
  | _, _ => None
  end.

End SVGRenderer.

(* ================================================================== *)
(** * Properties *)

(** ** Strings and maps *)

Lemma eqb_eq (a b : str) : JsString.eqb a b = true <-> a = b.
Proof.
  revert b; induction a as [|c a IH]; intros [|d b]; simpl;
    try (split; [discriminate | congruence]); try tauto.
  rewrite andb_true_iff, N.eqb_eq, IH. split.
  - intros [-> ->]; reflexivity.
  - intros H; injection H; auto.
Qed.

Lemma eqb_refl (a : str) : JsString.eqb a a = true.
Proof. apply eqb_eq; reflexivity. Qed.

Lemma eqb_neq (a b : str) : JsString.eqb a b = false <-> a <> b.
Proof.
  split.
  - intros H E. apply eqb_eq in E. congruence.
  - intros H. destruct (JsString.eqb a b) eqn:E; auto.
    apply eqb_eq in E. contradiction.
Qed.

Lemma eqb_sym (a b : str) : JsString.eqb a b = JsString.eqb b a.
Proof.
  destruct (JsString.eqb a b) eqn:E.
  - apply eqb_eq in E; subst; symmetry; apply eqb_refl.
  - symmetry; apply eqb_neq; apply eqb_neq in E; congruence.
Qed.

Section MapFacts.
Variable V : Type.
Implicit Types (m : JsMap.t V) (k : str) (v : V).

Lemma has_keys k m : JsMap.has k m = existsb (JsString.eqb k) (JsMap.keys m).
Proof.
  unfold JsMap.has. induction m as [|[k' v'] m IH]; simpl; auto.
  rewrite (eqb_sym k k'). destruct (JsString.eqb k' k); auto.
Qed.

Lemma has_In k m : JsMap.has k m = true <-> In k (JsMap.keys m).
Proof.
  rewrite has_keys, existsb_exists. split.
  - intros (y & Hy & E). apply eqb_eq in E. subst; auto.
  - intros H. exists k. split; auto. apply eqb_refl.
Qed.

Lemma get_set_same k v m : JsMap.get k (JsMap.set k v m) = Some v.
Proof.
  induction m as [|[k' v'] m IH]; simpl.
  - rewrite eqb_refl; reflexivity.
  - destruct (JsString.eqb k' k) eqn:E; simpl; rewrite E; auto.
Qed.

Lemma get_set_other k k' v m :
  k' <> k -> JsMap.get k' (JsMap.set k v m) = JsMap.get k' m.
Proof.
  intros H. induction m as [|[k0 v0] m IH]; simpl.
  - apply eqb_neq in H. rewrite eqb_sym, H. reflexivity.
  - destruct (JsString.eqb k0 k) eqn:E; simpl.
    + apply eqb_eq in E. subst k0.
      assert (JsString.eqb k k' = false) as ->
        by (apply eqb_neq; congruence).
      reflexivity.
    + destruct (JsString.eqb k0 k'); auto.
Qed.

Lemma keys_set k v m :
  JsMap.keys (JsMap.set k v m) =
  if JsMap.has k m then JsMap.keys m else JsMap.keys m ++ [k].
Proof.
  unfold JsMap.has. induction m as [|[k0 v0] m IH]; simpl; auto.
  destruct (JsString.eqb k0 k) eqn:E; simpl; auto.
  unfold JsMap.keys in *. rewrite IH.
  destruct (JsMap.get k m); reflexivity.
Qed.

Lemma has_set k k' v m :
  JsMap.has k' (JsMap.set k v m) = (JsString.eqb k k' || JsMap.has k' m)%bool.
Proof.
  unfold JsMap.has. destruct (JsString.eqb k k') eqn:E.
  - apply eqb_eq in E. subst. rewrite get_set_same. reflexivity.
  - apply eqb_neq in E. rewrite get_set_other by congruence. reflexivity.
Qed.

Lemma get_In k v m : JsMap.get k m = Some v -> In (k, v) m.
Proof.
  induction m as [|[k0 v0] m IH]; simpl; [discriminate|].
  destruct (JsString.eqb k0 k) eqn:E.
  - apply eqb_eq in E. intros H; injection H as ->. subst; auto.
  - auto.
Qed.

Lemma In_set k v k' v' m :
  In (k', v') (JsMap.set k v m) -> (k' = k /\ v' = v) \/ In (k', v') m.
Proof.
  induction m as [|[k0 v0] m IH]; simpl.
  - intros [H|[]]. injection H as <- <-. auto.
  - destruct (JsString.eqb k0 k) eqn:E; simpl.
    + apply eqb_eq in E. subst k0. intros [H|H]; auto.
      injection H as <- <-. auto.
    + intros [H|H]; auto. destruct (IH H); auto.
Qed.

End MapFacts.

(* ================================================================== *)
(** ** The layout adapter *)

Section LayoutFacts.

Open Scope Z_scope.

Lemma layout_nonempty (graph : Graph.t) :
  Graph.nodes graph <> [] ->
  layout graph =
  AwaitLayout (convertToELKGraph graph) (fun settled =>
    match tryBlock settled (originalNodesOf graph) with
    | inr result => Resolve result
    | inl error => Warn error (Resolve (fallbackLayout graph))
    end).
Proof.
  unfold layout. destruct (Graph.nodes graph); [congruence|reflexivity].
Qed.

(** When the engine is invoked and fails, the promise resolves to the
    fallback layout. *)
Lemma settle_engine_failure (engine : Engine) (graph : Graph.t) thrown :
  Graph.nodes graph <> [] ->
  engine (convertToELKGraph graph) = inl thrown ->
  settle engine (layout graph) = inr (fallbackLayout graph).
Proof.
  intros Hne Hfail. rewrite layout_nonempty by assumption.
  simpl. rewrite Hfail. reflexivity.
Qed.

Lemma mapIndexed_length {A B} (f : A -> nat -> B) l : forall i,
  length (mapIndexed f i l) = length l.
Proof. induction l; simpl; intros; auto. Qed.

Lemma mapIndexed_nth_error {A B} (f : A -> nat -> B) l : forall start i a,
  nth_error l i = Some a ->
  nth_error (mapIndexed f start l) i = Some (f a (start + i)%nat).
Proof.
  induction l as [|b l IH]; intros start [|i] a; simpl; try discriminate.
  - intros H; injection H as ->. rewrite Nat.add_0_r. reflexivity.
  - intros H. rewrite (IH (S start) i a H). f_equal. f_equal. lia.
Qed.

(** [ceilDiv n 4] is the number of rows of four that hold [n] nodes. *)
Lemma ceilDiv_rows (n : Z) :
  4 * (ceilDiv n 4 - 1) < n <= 4 * ceilDiv n 4.
Proof.
  unfold ceilDiv.
  pose proof (Z.div_mod (- n) 4 ltac:(lia)).
  pose proof (Z.mod_pos_bound (- n) 4 ltac:(lia)).
  lia.
Qed.

End LayoutFacts.

(** C4.  A graph without nodes: [layout] resolves at once to the empty
    graph with bounds 800 x 600, and the external engine is never invoked,
    whatever the edges of the input are. *)
Theorem layout_empty_graph (graph : Graph.t) :
  Graph.nodes graph = [] ->
  layout graph = Resolve (LayoutResult.mk (Graph.mk [] []) (mkSize 800 600))
  /\ forall engine : Engine,
       engineCalls engine (layout graph) = [] /\
       settle engine (layout graph) =
       inr (LayoutResult.mk (Graph.mk [] []) (mkSize 800 600)).
Proof.
  intros H. unfold layout. rewrite H. simpl. auto.
Qed.

Lemma layout_empty_graph_witness :
  let graph := Graph.mk [] [mkEdge (js "A") (js "B") None arrow] in
  layout graph = Resolve (LayoutResult.mk (Graph.mk [] []) (mkSize 800 600))
  /\ forall engine : Engine,
       engineCalls engine (layout graph) = [] /\
       settle engine (layout graph) =
       inr (LayoutResult.mk (Graph.mk [] []) (mkSize 800 600)).
Proof.
  exact (layout_empty_graph (Graph.mk [] [mkEdge (js "A") (js "B") None arrow])
           eq_refl).
Defined.

(** C5.  When the engine is invoked and throws or rejects, [layout]
    resolves to the grid: the i-th node of the input keeps its id, label
    and shape and gets position ((i mod 4) * 150 + 50, (i / 4) * 100 + 50)
    and size 120 x 60; the edges are those of the input; the bounds are
    4 * 150 + 100 wide and rows * 100 + 100 high, where rows = ceil(N / 4)
    is the number of rows of four that hold the N nodes. *)
Theorem fallback_grid (engine : Engine) (graph : Graph.t) (thrown : JsThrown) :
  Graph.nodes graph <> [] ->
  engine (convertToELKGraph graph) = inl thrown ->
  exists result,
    settle engine (layout graph) = inr result /\
    length (Graph.nodes (LayoutResult.graph result)) =
      length (Graph.nodes graph) /\
    (forall i node,
        nth_error (Graph.nodes graph) i = Some node ->
        exists node',
          nth_error (Graph.nodes (LayoutResult.graph result)) i = Some node' /\
          GraphNode.id node' = GraphNode.id node /\
          GraphNode.label node' = GraphNode.label node /\
          GraphNode.shape node' = GraphNode.shape node /\
          GraphNode.position node' =
            Some (mkPoint ((Z.of_nat i mod 4) * 150 + 50)
                          ((Z.of_nat i / 4) * 100 + 50)) /\
          GraphNode.size node' = Some (mkSize 120 60)) /\
    Graph.edges (LayoutResult.graph result) = Graph.edges graph /\
    (exists rows,
        (4 * (rows - 1) < Z.of_nat (length (Graph.nodes graph)) <= 4 * rows)%Z /\
        LayoutResult.bounds result =
          mkSize (4 * 150 + 100) (rows * 100 + 100)).
Proof.
  intros Hne Hfail. exists (fallbackLayout graph).
  split; [eapply settle_engine_failure; eassumption|].
  unfold fallbackLayout; simpl.
  split; [apply mapIndexed_length|].
  split.
  - intros i node Hi. eexists. split.
    + apply mapIndexed_nth_error. exact Hi.
    + simpl. repeat split; reflexivity.
  - split; [reflexivity|].
    exists (ceilDiv (Z.of_nat (length (Graph.nodes graph))) 4).
    split; [apply ceilDiv_rows | reflexivity].
Qed.

(** C7.  Under every engine, [layout] resolves: it never rejects.  If the
    engine's promise rejects (or the engine throws), the result is the
    fallback layout. *)
Theorem layout_always_resolves (engine : Engine) (graph : Graph.t) :
  (exists result, settle engine (layout graph) = inr result) /\
  (forall thrown,
      Graph.nodes graph <> [] ->
      engine (convertToELKGraph graph) = inl thrown ->
      settle engine (layout graph) = inr (fallbackLayout graph) /\
      warnings engine (layout graph) = [thrown]).
Proof.
  split.
  - unfold layout. destruct (Nat.eqb _ 0); simpl; [eauto|].
    destruct (tryBlock _ _); simpl; eauto.
  - intros thrown Hne Hfail. rewrite layout_nonempty by assumption.
    simpl. rewrite Hfail. simpl. auto.
Qed.

Lemma fallback_grid_witness :
  let graph := Graph.mk [defaultNode (js "A"); defaultNode (js "B");
                         defaultNode (js "C"); defaultNode (js "D");
                         defaultNode (js "E")] [] in
  exists result,
    settle failingEngine (layout graph) = inr result /\
    length (Graph.nodes (LayoutResult.graph result)) =
      length (Graph.nodes graph) /\
    (forall i node,
        nth_error (Graph.nodes graph) i = Some node ->
        exists node',
          nth_error (Graph.nodes (LayoutResult.graph result)) i = Some node' /\
          GraphNode.id node' = GraphNode.id node /\
          GraphNode.label node' = GraphNode.label node /\
          GraphNode.shape node' = GraphNode.shape node /\
          GraphNode.position node' =
            Some (mkPoint ((Z.of_nat i mod 4) * 150 + 50)
                          ((Z.of_nat i / 4) * 100 + 50)) /\
          GraphNode.size node' = Some (mkSize 120 60)) /\
    Graph.edges (LayoutResult.graph result) = Graph.edges graph /\
    (exists rows,
        (4 * (rows - 1) < Z.of_nat (length (Graph.nodes graph)) <= 4 * rows)%Z /\
        LayoutResult.bounds result =
          mkSize (4 * 150 + 100) (rows * 100 + 100)).
Proof.
  intros graph.
  apply (fallback_grid failingEngine graph OtherValue).
  - intros H; discriminate H.
  - reflexivity.
Defined.

Lemma layout_always_resolves_witness :
  let graph := Graph.mk [defaultNode (js "A")] [] in
  (exists result, settle failingEngine (layout graph) = inr result) /\
  settle failingEngine (layout graph) = inr (fallbackLayout graph) /\
  warnings failingEngine (layout graph) = [OtherValue].
Proof.
  intros graph.
  destruct (layout_always_resolves failingEngine graph) as [Hres Hfall].
  split; [exact Hres|].
  apply (Hfall OtherValue).
  - intros H; discriminate H.
  - reflexivity.
Defined.

(** *** Pinned nodes *)

Lemma numOr_zero (v : Z) : numOr (Some v) 0 = v.
Proof.
  unfold numOr. destruct (Z.eqb v 0) eqn:E; auto.
  apply Z.eqb_eq in E. auto.
Qed.

(** A pinned node with a position is handed to the engine with its
    coordinates and the directive that fixes it; an unpinned node is handed
    over without coordinates. *)
Lemma toELKNode_pinned (node : GraphNode.t) (p : Point) :
  GraphNode.isDragged node = Some true ->
  GraphNode.position node = Some p ->
  ElkNode.x (toELKNode node) = Some (x p) /\
  ElkNode.y (toELKNode node) = Some (y p) /\
  ElkNode.layoutOptions (toELKNode node) =
    Some [("elk.position", "fixed")%string].
Proof.
  intros Hd Hp. unfold toELKNode. rewrite Hd, Hp. simpl. auto.
Qed.

Lemma toELKNode_unpinned (node : GraphNode.t) :
  truthy (GraphNode.isDragged node) = false ->
  ElkNode.x (toELKNode node) = None /\
  ElkNode.y (toELKNode node) = None /\
  ElkNode.layoutOptions (toELKNode node) = None.
Proof.
  intros Hd. unfold toELKNode. rewrite Hd. auto.
Qed.

(** On the success path the position of a node is the one the engine
    returned for it: a pinned node keeps its place exactly when the engine
    honours the fixed coordinates it was given. *)
Lemma fromELKNode_position originalNodes (child : ElkOutNode.t) (x0 y0 : Z) :
  ElkOutNode.x child = Some x0 ->
  ElkOutNode.y child = Some y0 ->
  GraphNode.position (fromELKNode originalNodes child) = Some (mkPoint x0 y0).
Proof.
  intros Hx Hy. unfold fromELKNode. simpl. rewrite Hx, Hy, !numOr_zero.
  reflexivity.
Qed.

(** C1.  On the fallback path the pin is not looked at: the graph with the
    single node A, dragged to (500, 500), comes back from [layout] with A
    at the first cell of the grid, (50, 50), when the engine fails. *)
Theorem pinned_node_moved_by_fallback :
  GraphNode.isDragged pinnedNode = Some true /\
  GraphNode.position pinnedNode = Some (mkPoint 500 500) /\
  settle failingEngine (layout pinnedGraph) =
  inr (LayoutResult.mk
         (Graph.mk
            [GraphNode.mk (js "A") (js "A") rectangle
               (Some (mkPoint 50 50)) (Some (mkSize 120 60)) None (Some true)]
            [])
         (mkSize 700 200)).
Proof. repeat split. Qed.

(** *** Shapes across the conversion *)

Section OriginalNodes.

Local Notation "'setEntry'" :=
  (fun (m : JsMap.t GraphNode.t) (kv : str * GraphNode.t) =>
     JsMap.set (fst kv) (snd kv) m).

Lemma get_fold_set_absent (es : list (str * GraphNode.t)) : forall m k,
  ~ In k (map fst es) ->
  JsMap.get k (fold_left setEntry es m) = JsMap.get k m.
Proof.
  induction es as [|[k0 v0] es IH]; simpl; intros m k Hk; auto.
  rewrite IH by tauto. simpl.
  apply get_set_other. intros ->. tauto.
Qed.

Lemma get_fold_set_present (es : list (str * GraphNode.t)) : forall m k v,
  NoDup (map fst es) -> In (k, v) es ->
  JsMap.get k (fold_left setEntry es m) = Some v.
Proof.
  induction es as [|[k0 v0] es IH]; simpl; intros m k v Hnd Hin; [contradiction|].
  inversion Hnd as [|? ? Hk0 Hnd']; subst.
  destruct Hin as [E|Hin].
  - injection E as -> ->. rewrite get_fold_set_absent by assumption.
    simpl. apply get_set_same.
  - apply IH; assumption.
Qed.

(** With distinct ids, [originalNodes.get(node.id)] is the node itself. *)
Lemma originalNodesOf_get (graph : Graph.t) (node : GraphNode.t) :
  NoDup (map GraphNode.id (Graph.nodes graph)) ->
  In node (Graph.nodes graph) ->
  JsMap.get (GraphNode.id node) (originalNodesOf graph) = Some node.
Proof.
  intros Hnd Hin. unfold originalNodesOf, JsMap.of_entries.
  apply (get_fold_set_present _ []).
  - rewrite map_map. simpl. exact Hnd.
  - apply in_map_iff. exists node. auto.
Qed.

End OriginalNodes.

Lemma fromELKNode_shape (graph : Graph.t) (node : GraphNode.t)
    (out : ElkOutNode.t) :
  NoDup (map GraphNode.id (Graph.nodes graph)) ->
  In node (Graph.nodes graph) ->
  positions (toELKNode node) out ->
  idAndShape (fromELKNode (originalNodesOf graph) out) = idAndShape node.
Proof.
  intros Hnd Hin [Hid Hshape]. unfold idAndShape, fromELKNode; simpl.
  rewrite Hid. simpl. f_equal.
  destruct Hshape as [-> | ->]; [reflexivity|].
  change (ElkNode.id (toELKNode node)) with (GraphNode.id node).
  rewrite originalNodesOf_get by assumption. reflexivity.
Qed.

Lemma fromELKNodes_shapes (graph : Graph.t) :
  NoDup (map GraphNode.id (Graph.nodes graph)) ->
  forall nodes returned,
    incl nodes (Graph.nodes graph) ->
    Forall2 positions (map toELKNode nodes) returned ->
    map idAndShape (map (fromELKNode (originalNodesOf graph)) returned) =
    map idAndShape nodes.
Proof.
  intros Hnd.
  induction nodes as [|node nodes IH]; intros returned Hincl Hpos;
    inversion Hpos as [|? out ? returned' Hp Hrest]; subst; simpl.
  - reflexivity.
  - f_equal.
    + apply fromELKNode_shape; auto. apply Hincl; left; reflexivity.
    + apply IH; auto. intros n Hn; apply Hincl; right; exact Hn.
Qed.

(** C8.  Shapes survive the round trip through the engine's schema: take a
    graph with distinct node ids, convert it with [convertToELKGraph], let
    the engine return each child under its id (repositioned and resized as
    it likes, with the extra [shape] property carried along or dropped),
    and convert back with [convertFromELKGraph]; the nodes that come out
    have, in order, the ids and the shapes of the nodes that went in. *)
Theorem shape_round_trip (graph : Graph.t) (elkGraph : ElkOutGraph.t)
    (returned : list ElkOutNode.t) (result : Graph.t) :
  NoDup (map GraphNode.id (Graph.nodes graph)) ->
  ElkOutGraph.children elkGraph = Some returned ->
  Forall2 positions (ElkGraph.children (convertToELKGraph graph)) returned ->
  convertFromELKGraph elkGraph (originalNodesOf graph) = inr result ->
  map idAndShape (Graph.nodes result) = map idAndShape (Graph.nodes graph).
Proof.
  intros Hnd Hch Hpos Hconv.
  unfold convertFromELKGraph in Hconv. rewrite Hch in Hconv.
  destruct (match ElkOutGraph.edges elkGraph with
            | Some edges => mapExc fromELKEdge edges
            | None => inr []
            end) as [thrown|edges]; [discriminate|].
  injection Hconv as <-. simpl in *.
  apply fromELKNodes_shapes; auto. apply incl_refl.
Qed.

Lemma shape_round_trip_witness :
  map idAndShape
      (map (fromELKNode (originalNodesOf roundTripGraph)) roundTripReturned) =
  map idAndShape (Graph.nodes roundTripGraph).
Proof.
  apply (shape_round_trip roundTripGraph
           (ElkOutGraph.mk (Some roundTripReturned) None None None)
           roundTripReturned
           (Graph.mk (map (fromELKNode (originalNodesOf roundTripGraph))
                          roundTripReturned) [])).
  - simpl. apply NoDup_cons; [intros [H|[]]; discriminate H|].
    apply NoDup_cons; [intros []|apply NoDup_nil].
  - reflexivity.
  - simpl. apply Forall2_cons; [split; [reflexivity|left; reflexivity]|].
    apply Forall2_cons; [split; [reflexivity|right; reflexivity]|].
    apply Forall2_nil.
  - reflexivity.
Defined.

(* ================================================================== *)
(** ** The parser *)

(** *** Results of [parse] *)

(** C6.  [parse] is a total function of its input, and its result has
    exactly one of [graph] and [error].  The same holds when the call to
    [parseFlowchartContent] is replaced by any computation that may throw:
    whatever is thrown inside the [try] block is caught, and the result is
    the error that carries the message of the thrown [Error] (or
    'Unknown parsing error' for a thrown value that is not an [Error]). *)
Theorem parse_exactly_one
    (content : str -> Exc (list GraphNode.t * list GraphEdge.t))
    (mermaidCode : str) :
  exactlyOne (parse mermaidCode) /\
  exactlyOne (parseWith content mermaidCode) /\
  (forall thrown,
      parseBody content mermaidCode = inl thrown ->
      parseWith content mermaidCode =
      ParseResult.mk None (Some (ParseError.mk (caughtMessage thrown)))).
Proof.
  assert (H : forall c, exactlyOne (parseWith c mermaidCode)).
  { intros c. unfold parseWith, parseBody.
    destruct (is_empty (trim mermaidCode)).
    - right. eexists; split; reflexivity.
    - destruct (c (cleanMermaidCode mermaidCode)) as [[m|]|[nodes edges]].
      + right. eexists; split; reflexivity.
      + right. eexists; split; reflexivity.
      + left. eexists; split; reflexivity. }
  split; [apply H|]. split; [apply H|].
  intros thrown Hbody. unfold parseWith. rewrite Hbody.
  destruct thrown; reflexivity.
Qed.

Lemma parse_exactly_one_witness :
  let content := fun _ : str =>
    inl (ErrorObject (js "boom")) : Exc (list GraphNode.t * list GraphEdge.t) in
  exactlyOne (parse (js "A-->B")) /\
  parseWith content (js "A-->B") =
  ParseResult.mk None (Some (ParseError.mk (js "boom"))).
Proof.
  intros content.
  destruct (parse_exactly_one content (js "A-->B")) as (H1 & _ & H3).
  split; [exact H1|].
  apply (H3 (ErrorObject (js "boom"))). reflexivity.
Defined.

(** *** Shape decoding *)

Ltac jslit :=
  repeat match goal with
         | |- context [js ?s] =>
             let v := eval vm_compute in (js s) in change (js s) with v
         | H : context [js ?s] |- _ =>
             let v := eval vm_compute in (js s) in change (js s) with v in H
         end.

Lemma startsWith_app (p s : str) : startsWith (p ++ s) p = true.
Proof.
  induction p as [|d p IH]; simpl; [destruct s; reflexivity|].
  rewrite N.eqb_refl. exact IH.
Qed.

Lemma startsWith_inv (p : str) : forall s,
  startsWith s p = true -> exists r, s = p ++ r.
Proof.
  induction p as [|d p IH]; intros s H.
  - exists s. reflexivity.
  - destruct s as [|c s]; simpl in H; [discriminate|].
    apply andb_true_iff in H. destruct H as [Hc Hs].
    apply N.eqb_eq in Hc. subst c.
    destruct (IH s Hs) as [r ->]. exists r. reflexivity.
Qed.

Lemma endsWith_app (s q : str) : endsWith (s ++ q) q = true.
Proof. unfold endsWith. rewrite rev_app_distr. apply startsWith_app. Qed.

Lemma endsWith_inv (q s : str) :
  endsWith s q = true -> exists r, s = r ++ q.
Proof.
  unfold endsWith. intros H. apply startsWith_inv in H. destruct H as [r Hr].
  exists (rev r). rewrite <- (rev_involutive s), Hr, rev_app_distr,
    rev_involutive. reflexivity.
Qed.

Lemma slice_app (p t q : str) :
  slice (p ++ t ++ q) (length p) (length q) = t.
Proof.
  unfold slice. rewrite skipn_app, skipn_all, Nat.sub_diag. simpl.
  rewrite !length_app.
  replace (length p + (length t + length q) - length q - length p)%nat
    with (length t + 0)%nat by lia.
  rewrite firstn_app_2. simpl. apply app_nil_r.
Qed.

(** A string that starts with [open] and ends with [close] is
    [open ++ t ++ close], when the two cannot overlap. *)
Lemma bracketed_1 (o c : N) (s : str) :
  o <> c ->
  startsWith s [o] = true -> endsWith s [c] = true ->
  exists t, s = [o] ++ t ++ [c].
Proof.
  intros Hoc Hs He.
  apply startsWith_inv in Hs. destruct Hs as [r1 ->].
  apply endsWith_inv in He. destruct He as [r2 He].
  destruct r2 as [|d r2]; simpl in He.
  - injection He as E1 E2. congruence.
  - injection He as E1 E2. subst. exists r2. reflexivity.
Qed.

Lemma bracketed_2 (o c : N) (s : str) :
  o <> c ->
  startsWith s [o; o] = true -> endsWith s [c; c] = true ->
  exists t, s = [o; o] ++ t ++ [c; c].
Proof.
  intros Hoc Hs He.
  apply startsWith_inv in Hs. destruct Hs as [r1 ->].
  apply endsWith_inv in He. destruct He as [r2 He].
  destruct r2 as [|d [|e r2]]; simpl in He.
  - injection He as E1 E2. congruence.
  - injection He as E1 E2 E3. congruence.
  - injection He as E1 E2 E3. subst. exists r2. reflexivity.
Qed.

Lemma startsWith_false (c d : N) (s : str) :
  c <> d -> startsWith (c :: s) [d] = false.
Proof.
  intros H. simpl. apply N.eqb_neq in H. rewrite H. reflexivity.
Qed.

Lemma endsWith_app3 (p t q : str) : endsWith (p ++ t ++ q) q = true.
Proof. rewrite app_assoc. apply endsWith_app. Qed.

Lemma parseNodeDefinition_double_square (id text : str) :
  parseNodeDefinition id (js "[[" ++ text ++ js "]]") =
  GraphNode.mk id (trim text) rectangle None None None None.
Proof.
  unfold parseNodeDefinition.
  rewrite startsWith_app, endsWith_app3. simpl andb. cbv iota.
  do 2 f_equal. exact (slice_app (js "[[") text (js "]]")).
Qed.

Lemma parseNodeDefinition_circle (id text : str) :
  parseNodeDefinition id (js "((" ++ text ++ js "))") =
  GraphNode.mk id (trim text) circle None None None None.
Proof.
  unfold parseNodeDefinition.
  rewrite (startsWith_app (js "((")), (endsWith_app3 (js "((")).
  assert (F1 : forall s, startsWith (js "((" ++ s) (js "[[") = false)
    by reflexivity.
  assert (F2 : forall s, startsWith (js "((" ++ s) (js "[") = false)
    by reflexivity.
  rewrite F1, F2. simpl andb. cbv iota.
  do 2 f_equal. exact (slice_app (js "((") text (js "))")).
Qed.

Lemma parseNodeDefinition_diamond (id text : str) :
  parseNodeDefinition id (js "{" ++ text ++ js "}") =
  GraphNode.mk id (trim text) diamond None None None None.
Proof.
  unfold parseNodeDefinition.
  rewrite (startsWith_app (js "{")), (endsWith_app3 (js "{")).
  assert (F1 : forall s, startsWith (js "{" ++ s) (js "[[") = false)
    by reflexivity.
  assert (F2 : forall s, startsWith (js "{" ++ s) (js "[") = false)
    by reflexivity.
  assert (F3 : forall s, startsWith (js "{" ++ s) (js "((") = false)
    by reflexivity.
  rewrite F1, F2, F3. simpl andb. cbv iota.
  do 2 f_equal. exact (slice_app (js "{") text (js "}")).
Qed.

Lemma parseNodeDefinition_square_shape (id text : str) :
  GraphNode.shape (parseNodeDefinition id (js "[" ++ text ++ js "]")) =
  rectangle.
Proof.
  unfold parseNodeDefinition.
  rewrite (startsWith_app (js "[")), (endsWith_app3 (js "[")).
  destruct (startsWith _ (js "[[") && endsWith _ (js "]]")); reflexivity.
Qed.

Lemma parseNodeDefinition_square (id text : str) :
  (forall t, text <> js "[" ++ t ++ js "]") ->
  parseNodeDefinition id (js "[" ++ text ++ js "]") =
  GraphNode.mk id (trim text) rectangle None None None None.
Proof.
  intros Hnot. unfold parseNodeDefinition.
  rewrite (startsWith_app (js "[")), (endsWith_app3 (js "[")).
  destruct (startsWith (js "[" ++ text ++ js "]") (js "[[")
            && endsWith (js "[" ++ text ++ js "]") (js "]]")) eqn:E.
  - exfalso. apply andb_true_iff in E. destruct E as [Es Ee].
    destruct (bracketed_2 91%N 93%N _ ltac:(discriminate) Es Ee)
      as [t Ht].
    apply (Hnot t). jslit. simpl in Ht. injection Ht as Ht.
    replace (91 :: t ++ [93; 93])%N with ((91 :: t ++ [93]) ++ [93])%N in Ht
      by (simpl; rewrite <- app_assoc; reflexivity).
    apply app_inj_tail in Ht. destruct Ht as [-> _]. reflexivity.
  - simpl andb. cbv iota.
    do 2 f_equal. exact (slice_app (js "[") text (js "]")).
Qed.

Lemma parseNodeDefinition_other (id nodeDef : str) :
  (forall t, nodeDef <> js "[" ++ t ++ js "]") ->
  (forall t, nodeDef <> js "((" ++ t ++ js "))") ->
  (forall t, nodeDef <> js "{" ++ t ++ js "}") ->
  parseNodeDefinition id nodeDef = defaultNode id.
Proof.
  intros Hsq Hci Hdi. unfold parseNodeDefinition.
  destruct (startsWith nodeDef (js "[")) eqn:S1,
           (endsWith nodeDef (js "]")) eqn:E1.
  { exfalso.
    destruct (bracketed_1 91%N 93%N _ ltac:(discriminate) S1 E1)
      as [t Ht]. exact (Hsq t Ht). }
  all: assert (F1 : startsWith nodeDef (js "[[")
                    && endsWith nodeDef (js "]]") = false).
  all: try (destruct (startsWith nodeDef (js "[[")) eqn:S0,
                     (endsWith nodeDef (js "]]")) eqn:E0; try reflexivity;
            exfalso;
            apply startsWith_inv in S0; destruct S0 as [r0 ->];
            apply endsWith_inv in E0; destruct E0 as [r1 E0];
            first [ discriminate S1
                  | unfold endsWith in E1; rewrite E0, rev_app_distr in E1;
                    discriminate E1 ]).
  all: rewrite F1; simpl andb; cbv iota.
  all: (destruct (startsWith nodeDef (js "((") && endsWith nodeDef (js "))"))
          eqn:C2;
        [ exfalso; apply andb_true_iff in C2; destruct C2 as [S2 E2];
          destruct (bracketed_2 40%N 41%N _ ltac:(discriminate) S2 E2)
            as [t Ht]; exact (Hci t Ht) | ]).
  all: (destruct (startsWith nodeDef (js "{") && endsWith nodeDef (js "}"))
          eqn:C3;
        [ exfalso; apply andb_true_iff in C3; destruct C3 as [S3 E3];
          destruct (bracketed_1 123%N 125%N _ ltac:(discriminate) S3 E3)
            as [t Ht]; exact (Hdi t Ht) | ]).
  all: reflexivity.
Qed.

(** C9.  Shape decoding by [parseNodeDefinition], for every id and text:
    [[[text]]] gives a rectangle, [[text]] a rectangle, [((text))] a
    circle, [{text}] a diamond, each labelled with the text trimmed; the
    most specific form is decoded first, so [[text]] is labelled with its
    own text unless that text is itself of the form [[t]], which makes the
    whole a [[[t]]].  A definition of none of these forms gives the
    default rectangle labelled with the id. *)
Theorem shape_decoding (id text nodeDef : str) :
  parseNodeDefinition id (js "[[" ++ text ++ js "]]") =
    GraphNode.mk id (trim text) rectangle None None None None /\
  GraphNode.shape (parseNodeDefinition id (js "[" ++ text ++ js "]")) =
    rectangle /\
  ((forall t, text <> js "[" ++ t ++ js "]") ->
   parseNodeDefinition id (js "[" ++ text ++ js "]") =
     GraphNode.mk id (trim text) rectangle None None None None) /\
  parseNodeDefinition id (js "((" ++ text ++ js "))") =
    GraphNode.mk id (trim text) circle None None None None /\
  parseNodeDefinition id (js "{" ++ text ++ js "}") =
    GraphNode.mk id (trim text) diamond None None None None /\
  ((forall t, nodeDef <> js "[" ++ t ++ js "]") ->
   (forall t, nodeDef <> js "((" ++ t ++ js "))") ->
   (forall t, nodeDef <> js "{" ++ t ++ js "}") ->
   parseNodeDefinition id nodeDef =
     GraphNode.mk id id rectangle None None None None).
Proof.
  split; [apply parseNodeDefinition_double_square|].
  split; [apply parseNodeDefinition_square_shape|].
  split; [apply parseNodeDefinition_square|].
  split; [apply parseNodeDefinition_circle|].
  split; [apply parseNodeDefinition_diamond|].
  apply parseNodeDefinition_other.
Qed.

Lemma shape_decoding_witness :
  parseNodeDefinition (js "A") (js "[ Rect ]") =
    GraphNode.mk (js "A") (js "Rect") rectangle None None None None /\
  parseNodeDefinition (js "A") (js "(x)") =
    GraphNode.mk (js "A") (js "A") rectangle None None None None.
Proof.
  destruct (shape_decoding (js "A") (js " Rect ") (js "(x)"))
    as (_ & _ & Hsq & _ & _ & Hother).
  split.
  - apply Hsq. intros t H. vm_compute in H. discriminate H.
  - apply Hother; intros t H; vm_compute in H; discriminate H.
Defined.

(** *** The node registry along the lines *)

Lemma parseNodeDefinition_id (id nodeDef : str) :
  GraphNode.id (parseNodeDefinition id nodeDef) = id.
Proof.
  unfold parseNodeDefinition.
  repeat match goal with
         | |- context [if ?b then _ else _] => destruct b
         end; reflexivity.
Qed.

Lemma applyOp_id_value (op : RegistryOp) (nodes : JsMap.t GraphNode.t) :
  (forall k v, In (k, v) nodes -> GraphNode.id v = k) ->
  forall k v, In (k, v) (applyOp nodes op) -> GraphNode.id v = k.
Proof.
  intros Hinv k v Hin. destruct op as [id nodeDef|id]; simpl in Hin.
  - apply In_set in Hin. destruct Hin as [[-> ->]|Hin]; auto.
    apply parseNodeDefinition_id.
  - unfold ensureNode in Hin. destruct (JsMap.has id nodes); auto.
    apply In_set in Hin. destruct Hin as [[-> ->]|Hin]; auto.
Qed.

Lemma applyOp_has (op : RegistryOp) (nodes : JsMap.t GraphNode.t) (k : str) :
  JsMap.has k (applyOp nodes op) =
  (JsString.eqb (opId op) k || JsMap.has k nodes)%bool.
Proof.
  destruct op as [id nodeDef|id]; simpl.
  - apply has_set.
  - unfold ensureNode. destruct (JsMap.has id nodes) eqn:E.
    + destruct (JsString.eqb id k) eqn:Ek; auto.
      apply eqb_eq in Ek. subst. rewrite E. reflexivity.
    + apply has_set.
Qed.

(** The registry after a line is the registry before it with the
    operations of the line applied in order. *)
Lemma processLine_nodes (nodes : JsMap.t GraphNode.t) edges (line : str) :
  fst (processLine (nodes, edges) line) =
  fold_left applyOp (lineOps line) nodes.
Proof.
  unfold processLine, lineOps.
  destruct (groups nodeMatch line) as [[id nodeDef]|]; [reflexivity|].
  destruct (groups edgeWithNodesMatch line)
    as [[[[[fromId fromNodeDef] toId] toNodeDef] label]|]; [reflexivity|].
  destruct (groups edgeWithLabelAndNodeMatch line)
    as [[[[from label] toId] toNodeDef]|]; [reflexivity|].
  destruct (groups edgeWithLabelMatch line) as [[[from to] label]|];
    [reflexivity|].
  destruct (groups dashedEdgeMatch line) as [[[from to] label]|];
    reflexivity.
Qed.

(** The edges after a line are the edges before it, followed by at most
    one edge whose endpoints are ids that the line registers. *)
Lemma processLine_edges (nodes : JsMap.t GraphNode.t) edges (line : str) :
  snd (processLine (nodes, edges) line) = edges \/
  exists e, snd (processLine (nodes, edges) line) = edges ++ [e] /\
            In (GraphEdge.from e) (map opId (lineOps line)) /\
            In (GraphEdge.to e) (map opId (lineOps line)).
Proof.
  unfold processLine, lineOps.
  destruct (groups nodeMatch line) as [[id nodeDef]|]; [left; reflexivity|].
  destruct (groups edgeWithNodesMatch line)
    as [[[[[fromId fromNodeDef] toId] toNodeDef] label]|];
    [right; eexists; split; [reflexivity|split; simpl; auto 6]|].
  destruct (groups edgeWithLabelAndNodeMatch line)
    as [[[[from label] toId] toNodeDef]|];
    [right; eexists; split; [reflexivity|split; simpl; auto 6]|].
  destruct (groups edgeWithLabelMatch line) as [[[from to] label]|];
    [right; eexists; split; [reflexivity|split; simpl; auto 6]|].
  destruct (groups dashedEdgeMatch line) as [[[from to] label]|];
    [right; eexists; split; [reflexivity|split; simpl; auto 6]|left; reflexivity].
Qed.

Lemma fold_applyOp_has (ops : list RegistryOp) : forall nodes k,
  JsMap.has k (fold_left applyOp ops nodes) = true <->
  In k (map opId ops) \/ JsMap.has k nodes = true.
Proof.
  induction ops as [|op ops IH]; simpl; intros nodes k; [tauto|].
  rewrite IH, applyOp_has, orb_true_iff, eqb_eq. tauto.
Qed.

Lemma fold_applyOp_id_value (ops : list RegistryOp) : forall nodes,
  (forall k v, In (k, v) nodes -> GraphNode.id v = k) ->
  forall k v, In (k, v) (fold_left applyOp ops nodes) -> GraphNode.id v = k.
Proof.
  induction ops as [|op ops IH]; simpl; intros nodes Hinv; auto.
  apply IH. apply applyOp_id_value. exact Hinv.
Qed.

Lemma processLine_wellFormed (st : ParseState) (line : str) :
  wellFormed st -> wellFormed (processLine st line).
Proof.
  destruct st as [nodes edges]. intros [Hid Hedges]. simpl in Hid, Hedges.
  unfold wellFormed. split.
  - rewrite processLine_nodes. apply fold_applyOp_id_value. exact Hid.
  - intros e He. rewrite processLine_nodes, !fold_applyOp_has.
    destruct (processLine_edges nodes edges line) as [Heq|(e0 & Heq & Hf & Ht)];
      rewrite Heq in He.
    + destruct (Hedges e He). auto.
    + apply in_app_iff in He. destruct He as [He|[<-|[]]].
      * destruct (Hedges e He). auto.
      * auto.
Qed.

Lemma fold_processLine_wellFormed (lines : list str) : forall st,
  wellFormed st -> wellFormed (fold_left processLine lines st).
Proof.
  induction lines as [|line lines IH]; simpl; intros st H; auto.
  apply IH. apply processLine_wellFormed. exact H.
Qed.

Lemma runLines_wellFormed (lines : list str) : wellFormed (runLines lines).
Proof.
  apply fold_processLine_wellFormed. split; simpl; intros; contradiction.
Qed.

(** What [parse] returns when it returns a graph. *)
Lemma parse_graph (mermaidCode : str) (g : Graph.t) :
  ParseResult.graph (parse mermaidCode) = Some g ->
  g = Graph.mk
        (JsMap.values (fst (runLines (contentLines (cleanMermaidCode mermaidCode)))))
        (snd (runLines (contentLines (cleanMermaidCode mermaidCode)))).
Proof.
  unfold parse, parseWith, parseBody, parseFlowchartContent.
  destruct (is_empty (trim mermaidCode)); simpl; [discriminate|].
  destruct (runLines _) as [nodes edges]. simpl.
  intros H; injection H as <-. reflexivity.
Qed.

Lemma registered_node (nodes : JsMap.t GraphNode.t) (k : str) :
  (forall k v, In (k, v) nodes -> GraphNode.id v = k) ->
  JsMap.has k nodes = true ->
  exists n, In n (JsMap.values nodes) /\ GraphNode.id n = k.
Proof.
  intros Hid Hhas. unfold JsMap.has in Hhas.
  destruct (JsMap.get k nodes) as [v|] eqn:E; [|discriminate].
  apply get_In in E. exists v. split.
  - unfold JsMap.values. apply in_map_iff. exists (k, v). auto.
  - apply (Hid k v E).
Qed.

(** C2.  Whenever [parse] returns a graph, both endpoints of each of its
    edges are ids of nodes of that graph. *)
Theorem no_dangling_edges (mermaidCode : str) (g : Graph.t) :
  ParseResult.graph (parse mermaidCode) = Some g ->
  forall e, In e (Graph.edges g) ->
    (exists n, In n (Graph.nodes g) /\ GraphNode.id n = GraphEdge.from e) /\
    (exists n, In n (Graph.nodes g) /\ GraphNode.id n = GraphEdge.to e).
Proof.
  intros Hparse e He. apply parse_graph in Hparse. subst g. simpl in *.
  destruct (runLines_wellFormed (contentLines (cleanMermaidCode mermaidCode)))
    as [Hid Hedges].
  destruct (Hedges e He) as [Hf Ht].
  split; apply registered_node; assumption.
Qed.

Lemma no_dangling_edges_witness :
  exists g,
    ParseResult.graph (parse sampleCode) = Some g /\
    forall e, In e (Graph.edges g) ->
      (exists n, In n (Graph.nodes g) /\ GraphNode.id n = GraphEdge.from e) /\
      (exists n, In n (Graph.nodes g) /\ GraphNode.id n = GraphEdge.to e).
Proof.
  eexists. split.
  - vm_compute. reflexivity.
  - apply (no_dangling_edges sampleCode). vm_compute. reflexivity.
Defined.

(** *** Merging the declarations of one id *)

Lemma firstOccurrences_snoc (ids : list str) (id : str) :
  firstOccurrences (ids ++ [id]) =
  if existsb (JsString.eqb id) (firstOccurrences ids)
  then firstOccurrences ids else firstOccurrences ids ++ [id].
Proof. unfold firstOccurrences. rewrite fold_left_app. reflexivity. Qed.

Lemma lastDeclared_snoc (id : str) (ops : list RegistryOp) (op : RegistryOp) :
  lastDeclared id (ops ++ [op]) =
  match op with
  | Overwrite id' nodeDef =>
      if JsString.eqb id' id then Some nodeDef else lastDeclared id ops
  | Ensure _ => lastDeclared id ops
  end.
Proof. unfold lastDeclared. rewrite fold_left_app. reflexivity. Qed.

Lemma lastDeclared_registered (id : str) (ops : list RegistryOp) nodeDef :
  lastDeclared id ops = Some nodeDef -> In id (map opId ops).
Proof.
  induction ops as [|op ops IH] using rev_ind; [discriminate|].
  rewrite lastDeclared_snoc, map_app, in_app_iff. simpl.
  destruct op as [id' nodeDef'|id'].
  - destruct (JsString.eqb id' id) eqn:E.
    + apply eqb_eq in E. auto.
    + auto.
  - auto.
Qed.

Lemma existsb_eqb_In (id : str) (ids : list str) :
  existsb (JsString.eqb id) ids = true <-> In id ids.
Proof.
  rewrite existsb_exists. split.
  - intros (y & Hy & E). apply eqb_eq in E. subst. exact Hy.
  - intros H. exists id. split; [exact H | apply eqb_refl].
Qed.

Lemma firstOccurrences_In (ids : list str) (id : str) :
  In id (firstOccurrences ids) <-> In id ids.
Proof.
  induction ids as [|a ids IH] using rev_ind; [reflexivity|].
  rewrite firstOccurrences_snoc, in_app_iff. simpl.
  destruct (existsb (JsString.eqb a) (firstOccurrences ids)) eqn:E.
  - apply existsb_eqb_In in E. rewrite IH.
    split; [auto|]. intros [H|[<-|[]]]; auto. apply IH. exact E.
  - rewrite in_app_iff, IH. simpl. tauto.
Qed.

Lemma firstOccurrences_NoDup (ids : list str) : NoDup (firstOccurrences ids).
Proof.
  induction ids as [|a ids IH] using rev_ind; [constructor|].
  rewrite firstOccurrences_snoc.
  destruct (existsb (JsString.eqb a) (firstOccurrences ids)) eqn:E; auto.
  apply NoDup_app; auto.
  - repeat constructor. intros [].
  - intros x Hx [<-|[]].
    apply existsb_eqb_In in Hx. congruence.
Qed.

(** The registry that a sequence of operations builds from the empty map:
    its keys are the ids in the order of their first registration, and
    each id holds its merged node. *)
Lemma registry_of_ops (ops : list RegistryOp) :
  let nodes := fold_left applyOp ops [] in
  JsMap.keys nodes = firstOccurrences (map opId ops) /\
  forall id, JsMap.get id nodes =
             if existsb (JsString.eqb id) (map opId ops)
             then Some (mergedNode id ops) else None.
Proof.
  induction ops as [|op ops IH] using rev_ind; cbv zeta in *.
  - split; reflexivity.
  - rewrite fold_left_app. simpl fold_left.
    set (nodes := fold_left applyOp ops []) in *.
    destruct IH as [Hkeys Hget].
    assert (Hhas : forall id, JsMap.has id nodes =
                              existsb (JsString.eqb id) (map opId ops)).
    { intros id. unfold JsMap.has. rewrite Hget.
      destruct (existsb _ _); reflexivity. }
    rewrite map_app. simpl (map opId [op]). rewrite firstOccurrences_snoc.
    split.
    + rewrite <- Hkeys, <- has_keys.
      destruct op as [id nodeDef|id]; simpl.
      * apply keys_set.
      * unfold ensureNode. destruct (JsMap.has id nodes) eqn:E; auto.
        rewrite keys_set, E. reflexivity.
    + intros id. rewrite existsb_app. simpl. rewrite orb_false_r.
      unfold mergedNode. rewrite lastDeclared_snoc.
      destruct op as [id' nodeDef|id']; simpl.
      * destruct (JsString.eqb id' id) eqn:E.
        -- apply eqb_eq in E. subst id'. rewrite get_set_same, eqb_refl.
           rewrite orb_true_r. reflexivity.
        -- rewrite (eqb_sym id id'), E, orb_false_r.
           apply eqb_neq in E. rewrite get_set_other by congruence.
           apply Hget.
      * unfold ensureNode. destruct (JsMap.has id' nodes) eqn:Hh.
        -- rewrite Hget. destruct (JsString.eqb id id') eqn:E.
           ++ apply eqb_eq in E. subst id'. rewrite <- Hhas, Hh. reflexivity.
           ++ rewrite orb_false_r. reflexivity.
        -- destruct (JsString.eqb id id') eqn:E.
           ++ apply eqb_eq in E. subst id'. rewrite get_set_same, orb_true_r.
              destruct (lastDeclared id ops) as [nodeDef|] eqn:L; auto.
              apply lastDeclared_registered in L.
              apply existsb_eqb_In in L. rewrite <- Hhas in L. congruence.
           ++ rewrite orb_false_r. apply eqb_neq in E.
              rewrite get_set_other by congruence. apply Hget.
Qed.

Lemma fold_processLine_nodes (lines : list str) : forall nodes edges,
  fst (fold_left processLine lines (nodes, edges)) =
  fold_left applyOp (flat_map lineOps lines) nodes.
Proof.
  induction lines as [|line lines IH]; intros nodes edges; [reflexivity|].
  change (fold_left processLine (line :: lines) (nodes, edges))
    with (fold_left processLine lines (processLine (nodes, edges) line)).
  change (flat_map lineOps (line :: lines))
    with (lineOps line ++ flat_map lineOps lines).
  rewrite fold_left_app, <- processLine_nodes with (edges := edges).
  destruct (processLine (nodes, edges) line) as [nodes' edges']. apply IH.
Qed.

(** X25.  What the registry holds at the end.  Whenever [parse] returns a
    graph: its nodes carry pairwise distinct ids, in the order in which the
    lines first register them; and each node is the merged node of its id,
    decoded from the bracket form of the last declaration that a
    node-declaring matcher applied for that id (a bare declaration, either
    end of an edge with both bracket forms, the target of a labelled edge),
    or the default rectangle labelled with the id when no matcher applied
    one. *)
Theorem merged_declarations (mermaidCode : str) (g : Graph.t) :
  ParseResult.graph (parse mermaidCode) = Some g ->
  let ops := flat_map lineOps (contentLines (cleanMermaidCode mermaidCode)) in
  map GraphNode.id (Graph.nodes g) = firstOccurrences (map opId ops) /\
  NoDup (map GraphNode.id (Graph.nodes g)) /\
  (forall n, In n (Graph.nodes g) -> n = mergedNode (GraphNode.id n) ops) /\
  (forall id, In id (map opId ops) -> In (mergedNode id ops) (Graph.nodes g)).
Proof.
  intros Hparse ops. apply parse_graph in Hparse. subst g. simpl.
  set (lines := contentLines (cleanMermaidCode mermaidCode)) in *.
  pose proof (runLines_wellFormed lines) as [Hid _].
  unfold runLines in *. rewrite fold_processLine_nodes in *.
  fold ops in Hid |- *.
  destruct (registry_of_ops ops) as [Hkeys Hget].
  set (nodes := fold_left applyOp ops []) in *.
  assert (Hids : map GraphNode.id (JsMap.values nodes) = JsMap.keys nodes).
  { unfold JsMap.values, JsMap.keys. rewrite map_map.
    apply map_ext_in. intros [k v] Hin. simpl. apply (Hid k v Hin). }
  split; [rewrite Hids; exact Hkeys|].
  split; [rewrite Hids, Hkeys; apply firstOccurrences_NoDup|].
  split.
  - intros n Hn. unfold JsMap.values in Hn. apply in_map_iff in Hn.
    destruct Hn as ([k v] & <- & Hin). simpl.
    rewrite (Hid k v Hin).
    assert (Hk : JsMap.get k nodes = Some v).
    { assert (Hnd : NoDup (JsMap.keys nodes))
        by (rewrite Hkeys; apply firstOccurrences_NoDup).
      clear - Hin Hnd. induction nodes as [|[k0 v0] nodes IH]; [contradiction|].
      simpl in *. inversion Hnd as [|? ? Hk0 Hnd']; subst.
      destruct Hin as [E|Hin].
      - injection E as -> ->. rewrite eqb_refl. reflexivity.
      - destruct (JsString.eqb k0 k) eqn:E.
        + apply eqb_eq in E. subst k0. exfalso. apply Hk0.
          apply in_map_iff. exists (k, v). auto.
        + apply IH; assumption. }
    rewrite Hget in Hk. destruct (existsb _ _); congruence.
  - intros id Hin. apply existsb_eqb_In in Hin.
    specialize (Hget id). rewrite Hin in Hget. apply get_In in Hget.
    unfold JsMap.values. apply in_map_iff. exists (id, mergedNode id ops).
    auto.
Qed.

Lemma merged_declarations_witness :
  exists g,
    ParseResult.graph (parse mergeCode) = Some g /\
    map GraphNode.id (Graph.nodes g) = [js "A"; js "B"] /\
    NoDup (map GraphNode.id (Graph.nodes g)) /\
    In (GraphNode.mk (js "A") (js "Second") rectangle None None None None)
       (Graph.nodes g).
Proof.
  eexists. split.
  - vm_compute. reflexivity.
  - match goal with
    | |- context [Graph.nodes ?g] =>
        destruct (merged_declarations mergeCode g) as (H1 & H2 & _ & H4);
          [vm_compute; reflexivity|]
    end.
    split; [exact H1|]. split; [exact H2|].
    apply (H4 (js "A")). vm_compute. auto.
Defined.

(** C3.  The merge rule is broken where the plain-edge pattern consumes a
    line whose target carries a bracket form: B appears with the bracket
    forms [[First]] and then [{Second}], and the node B that [parse]
    returns is still the rectangle labelled 'First', not the diamond
    labelled 'Second' that the last bracket form decodes to. *)
Lemma last_bracket_form_not_applied :
  exists g,
    ParseResult.graph (parse (text [js "B[First]"; js "A --> B{Second}"]))
      = Some g /\
    In (GraphNode.mk (js "B") (js "First") rectangle None None None None)
       (Graph.nodes g) /\
    parseNodeDefinition (js "B") (js "{Second}") =
      GraphNode.mk (js "B") (js "Second") diamond None None None None /\
    ~ In (parseNodeDefinition (js "B") (js "{Second}")) (Graph.nodes g).
Proof.
  eexists. split; [vm_compute; reflexivity|].
  split; [left; reflexivity|].
  split; [reflexivity|].
  vm_compute. intros [H|[H|[]]]; discriminate H.
Qed.

(* ================================================================== *)
(** ** The matchers on an edge line with a trailing bracket form *)

Section MatcherFacts.

Context {A B : Type}.

Lemma bind_nil (m : matcher A) (f : A -> matcher B) (s : str) :
  Forall (fun ar => f (fst ar) (snd ar) = []) (m s) -> bind m f s = [].
Proof.
  unfold bind. induction 1 as [|ar l Har _ IH]; simpl; auto.
  rewrite Har, IH. reflexivity.
Qed.

Lemma bind_head (m : matcher A) (f : A -> matcher B) (s : str) a r tl b tl' :
  m s = (a, r) :: tl -> f a r = b :: tl' ->
  exists tl'', bind m f s = b :: tl''.
Proof.
  intros Hm Hf. unfold bind. rewrite Hm. simpl. rewrite Hf. simpl. eauto.
Qed.

Lemma bind_single (m : matcher A) (f : A -> matcher B) (s : str) a r :
  m s = [(a, r)] -> bind m f s = f a r.
Proof.
  intros Hm. unfold bind. rewrite Hm. simpl. apply app_nil_r.
Qed.

End MatcherFacts.

Lemma star_run (c : N -> bool) (w r : str) :
  Forall (fun x => c x = true) w -> startsIn c r = false ->
  exists tl, star c (w ++ r) = (w, r) :: tl /\
             Forall (fun pr => startsIn c (snd pr) = true) tl.
Proof.
  intros Hw Hr. induction Hw as [|x w Hx Hw IH]; simpl.
  - exists []. split; [|constructor].
    destruct r as [|y r]; simpl in *; [reflexivity|]. rewrite Hr. reflexivity.
  - rewrite Hx. destruct IH as (tl & -> & Htl). simpl.
    eexists. split; [reflexivity|].
    apply Forall_app. split.
    + rewrite Forall_map. simpl. exact Htl.
    + repeat constructor. simpl. exact Hx.
Qed.

Lemma plus_run (c : N -> bool) (w r : str) :
  w <> [] -> Forall (fun x => c x = true) w -> startsIn c r = false ->
  exists tl, plus c (w ++ r) = (w, r) :: tl /\
             Forall (fun pr => startsIn c (snd pr) = true) tl.
Proof.
  intros Hne Hw Hr. destruct w as [|x w]; [congruence|].
  inversion Hw as [|? ? Hx Hw']; subst. simpl. rewrite Hx.
  destruct (star_run c w r Hw' Hr) as (tl & -> & Htl). simpl.
  eexists. split; [reflexivity|]. rewrite Forall_map. exact Htl.
Qed.

Lemma star_stop (c : N -> bool) (s : str) :
  startsIn c s = false -> star c s = [([], s)].
Proof.
  destruct s as [|x s]; simpl; [reflexivity|]. intros ->. reflexivity.
Qed.

(** Every way [c*] or [c+] matches leaves a suffix of the input. *)
Lemma star_suffix (c : N -> bool) (s : str) :
  Forall (fun pr => s = fst pr ++ snd pr) (star c s).
Proof.
  induction s as [|x s IH]; simpl; [repeat constructor|].
  destruct (c x); [|repeat constructor].
  apply Forall_app. split; [|repeat constructor].
  rewrite Forall_map. simpl. eapply Forall_impl; [|exact IH].
  intros pr ->. reflexivity.
Qed.

Lemma plus_suffix (c : N -> bool) (s : str) :
  Forall (fun pr => s = fst pr ++ snd pr) (plus c s).
Proof.
  unfold plus. destruct s as [|x s]; [constructor|].
  destruct (c x); [|constructor].
  rewrite Forall_map. simpl. eapply Forall_impl; [|apply star_suffix].
  intros pr Hpr. simpl in Hpr. rewrite Hpr at 1. reflexivity.
Qed.

(** A capturing group around [c+] captures the run itself. *)
Lemma capture_plus (c : N -> bool) (s : str) :
  capture (plus c) s = plus c s.
Proof.
  unfold capture. rewrite <- (map_id (plus c s)) at 2.
  apply map_ext_Forall. eapply Forall_impl; [|apply plus_suffix].
  intros [p r] Hpr. simpl in *. subst s.
  rewrite length_app, Nat.add_sub, firstn_app, Nat.sub_diag, firstn_all.
  simpl. rewrite app_nil_r. reflexivity.
Qed.

Lemma lit_app (p s : str) : lit p (p ++ s) = [(tt, s)].
Proof.
  unfold lit. rewrite startsWith_app, skipn_app, skipn_all, Nat.sub_diag.
  reflexivity.
Qed.

Lemma lit_mismatch (d : N) (p s : str) :
  startsIn (N.eqb d) s = false -> lit (d :: p) s = [].
Proof.
  unfold lit. destruct s as [|x s]; simpl; [reflexivity|].
  rewrite N.eqb_sym. intros ->. reflexivity.
Qed.

(** *** Character classes *)

Ltac chars :=
  unfold is_word, is_space, isOpen, in_range;
  rewrite ?orb_true_iff, ?andb_true_iff, ?N.leb_le, ?N.eqb_eq;
  lia.

Lemma bool_excl (b c : bool) : (b = true -> c = true -> False) ->
  b = true -> c = false.
Proof. destruct b, c; intuition congruence. Qed.

Lemma word_not_space x : is_word x = true -> is_space x = false.
Proof. apply bool_excl. chars. Qed.

Lemma word_not_open x : is_word x = true -> isOpen x = false.
Proof. apply bool_excl. chars. Qed.

Lemma word_not_dash x : is_word x = true -> N.eqb 45 x = false.
Proof. apply bool_excl. chars. Qed.

Lemma word_not_bar x : is_word x = true -> N.eqb 124 x = false.
Proof. apply bool_excl. chars. Qed.

Lemma space_not_word x : is_space x = true -> is_word x = false.
Proof. apply bool_excl. chars. Qed.

Lemma space_not_open x : is_space x = true -> isOpen x = false.
Proof. apply bool_excl. chars. Qed.

Lemma space_not_dash x : is_space x = true -> N.eqb 45 x = false.
Proof. apply bool_excl. chars. Qed.

Lemma space_not_bar x : is_space x = true -> N.eqb 124 x = false.
Proof. apply bool_excl. chars. Qed.

Lemma open_not_word x : isOpen x = true -> is_word x = false.
Proof. apply bool_excl. chars. Qed.

Lemma open_not_bar x : isOpen x = true -> N.eqb 124 x = false.
Proof. apply bool_excl. chars. Qed.

Lemma startsIn_excl (c d : N -> bool) (s : str) :
  (forall x, c x = true -> d x = false) ->
  startsIn c s = true -> startsIn d s = false.
Proof. intros H. destruct s as [|x s]; simpl; auto. Qed.

Lemma startsIn_app (c : N -> bool) (w r : str) :
  startsIn c (w ++ r) =
  match w with [] => startsIn c r | x :: _ => c x end.
Proof. destruct w; reflexivity. Qed.

(** After a run of one class, the input does not start with a character of
    a class disjoint from it and from what follows the run. *)
Lemma startsIn_after (c d : N -> bool) (w r : str) :
  (forall x, c x = true -> d x = false) ->
  Forall (fun x => c x = true) w -> startsIn d r = false ->
  startsIn d (w ++ r) = false.
Proof.
  intros H Hw Hr. rewrite startsIn_app. destruct Hw; auto.
Qed.

Lemma startsIn_id (d : N -> bool) (w r : str) :
  (forall x, is_word x = true -> d x = false) ->
  isId w -> startsIn d (w ++ r) = false.
Proof.
  intros H [Hne Hw]. rewrite startsIn_app. destruct Hw; [congruence|auto].
Qed.

(** *** What each matcher makes of the line *)

Lemma exec_hd {A} (m : matcher A) (s : str) : exec m s = hd_error (m s).
Proof. unfold exec. destruct (m s); reflexivity. Qed.

Lemma bind_hd {A B} (m : matcher A) (f : A -> matcher B) (s : str)
    a r tl x :
  m s = (a, r) :: tl -> hd_error (f a r) = Some x ->
  hd_error (bind m f s) = Some x.
Proof.
  intros Hm Hf. unfold bind. rewrite Hm. simpl.
  destruct (f a r); [discriminate|exact Hf].
Qed.

Lemma fails_groups {A} (m : matcher A) (s : str) :
  m s = [] -> groups m s = None.
Proof. unfold groups, exec. intros ->. reflexivity. Qed.

Lemma not_open_eqb (d : N) (s : str) :
  isOpen d = true -> startsIn isOpen s = false ->
  startsIn (N.eqb d) s = false.
Proof.
  destruct s as [|x s]; simpl; auto. intros Hd Hx.
  destruct (N.eqb_spec d x); auto. subst. congruence.
Qed.

(** A bracket form starts with an opening bracket. *)
Lemma bracketForm_none (s : str) :
  startsIn isOpen s = false -> bracketForm s = [].
Proof.
  intros H. unfold bracketForm, capture, alt, bind. jslit.
  rewrite !lit_mismatch by (apply not_open_eqb; [reflexivity|exact H]).
  reflexivity.
Qed.

Lemma bind_bracketForm_none {B} (f : str -> matcher B) (s : str) :
  startsIn isOpen s = false -> bind bracketForm f s = [].
Proof.
  intros H. apply bind_nil. rewrite bracketForm_none by exact H. constructor.
Qed.

Lemma bind_lit_mismatch {B} (d : N) (p : str) (f : unit -> matcher B) s :
  startsIn (N.eqb d) s = false -> bind (lit (d :: p)) f s = [].
Proof.
  intros H. apply bind_nil. rewrite lit_mismatch by exact H. constructor.
Qed.

(** Without a [|] ahead, the optional label is absent. *)
Lemma edgeLabel_absent (s : str) :
  startsIn (N.eqb 124) s = false -> edgeLabel s = [(None, s)].
Proof.
  intros H. unfold edgeLabel, opt. jslit.
  rewrite bind_lit_mismatch by exact H. reflexivity.
Qed.

Section EdgeLine.

Variables from ws1 ws2 to trail : str.
Hypothesis Hfrom : isId from.
Hypothesis Hws1 : isSpaces ws1.
Hypothesis Hws2 : isSpaces ws2.
Hypothesis Hto : isId to.
Hypothesis Htrail : startsIn isOpen trail = true.

Local Notation "'afterTo'" := (to ++ trail).
Local Notation "'afterArrow'" := (ws2 ++ afterTo).
Local Notation "'arrowOn'" := (js "-->" ++ afterArrow).
Local Notation "'afterFrom'" := (ws1 ++ arrowOn).

Lemma edgeLine_eq : edgeLine from ws1 ws2 to trail = from ++ afterFrom.
Proof. reflexivity. Qed.

Lemma afterFrom_not_word : startsIn is_word afterFrom = false.
Proof.
  apply (startsIn_after is_space);
    [apply space_not_word | exact Hws1 | reflexivity].
Qed.

Lemma afterFrom_not_open : startsIn isOpen afterFrom = false.
Proof.
  apply (startsIn_after is_space);
    [apply space_not_open | exact Hws1 | reflexivity].
Qed.

Lemma from_run :
  exists tl, plus is_word (from ++ afterFrom) = (from, afterFrom) :: tl /\
             Forall (fun pr => startsIn is_word (snd pr) = true) tl.
Proof.
  destruct Hfrom. apply plus_run; auto. apply afterFrom_not_word.
Qed.

Lemma ws1_run :
  exists tl, star is_space afterFrom = (ws1, arrowOn) :: tl /\
             Forall (fun pr => startsIn is_space (snd pr) = true) tl.
Proof. apply star_run; auto. Qed.

Lemma ws2_run :
  exists tl, star is_space afterArrow = (ws2, afterTo) :: tl /\
             Forall (fun pr => startsIn is_space (snd pr) = true) tl.
Proof.
  apply star_run; auto. apply startsIn_id; auto using word_not_space.
Qed.

Lemma to_run :
  exists tl, plus is_word afterTo = (to, trail) :: tl /\
             Forall (fun pr => startsIn is_word (snd pr) = true) tl.
Proof.
  destruct Hto. apply plus_run; auto.
  apply (startsIn_excl isOpen); auto using open_not_word.
Qed.

(** No bracket form follows the first id, whichever prefix of it [\w+]
    settles for: the bare declaration and the edge with both bracket forms
    do not match. *)
Lemma no_bracket_after_from {B} (f : str -> str -> matcher B) :
  bind (capture (plus is_word)) (fun id => bind bracketForm (f id))
       (edgeLine from ws1 ws2 to trail) = [].
Proof.
  rewrite edgeLine_eq. apply bind_nil. rewrite capture_plus.
  destruct from_run as (tl & -> & Htl). constructor.
  - apply bind_bracketForm_none. apply afterFrom_not_open.
  - eapply Forall_impl; [|exact Htl]. intros pr Hpr.
    apply bind_bracketForm_none.
    apply (startsIn_excl is_word); auto using word_not_open.
Qed.

Lemma nodeMatch_edgeLine :
  groups nodeMatch (edgeLine from ws1 ws2 to trail) = None.
Proof. apply fails_groups. apply no_bracket_after_from. Qed.

Lemma edgeWithNodesMatch_edgeLine :
  groups edgeWithNodesMatch (edgeLine from ws1 ws2 to trail) = None.
Proof. apply fails_groups. apply no_bracket_after_from. Qed.

(** The labelled edge wants a [|] after the arrow and finds the second
    id there. *)
Lemma edgeWithLabelAndNodeMatch_edgeLine :
  groups edgeWithLabelAndNodeMatch (edgeLine from ws1 ws2 to trail) = None.
Proof.
  apply fails_groups. unfold edgeWithLabelAndNodeMatch. jslit.
  rewrite edgeLine_eq. apply bind_nil. rewrite capture_plus.
  destruct from_run as (tl & -> & Htl). constructor.
  - cbn [fst snd]. apply bind_nil.
    destruct ws1_run as (tl1 & -> & Htl1). constructor.
    + cbn [fst snd].
      etransitivity; [apply bind_single; apply lit_app|].
      apply bind_nil. destruct ws2_run as (tl2 & -> & Htl2). constructor.
      * apply bind_lit_mismatch. apply startsIn_id; auto using word_not_bar.
      * eapply Forall_impl; [|exact Htl2]. intros pr Hpr.
        apply bind_lit_mismatch.
        apply (startsIn_excl is_space); auto using space_not_bar.
    + eapply Forall_impl; [|exact Htl1]. intros pr Hpr.
      apply bind_lit_mismatch.
      apply (startsIn_excl is_space); auto using space_not_dash.
  - eapply Forall_impl; [|exact Htl]. intros pr Hpr.
    apply bind_nil. rewrite star_stop
      by (apply (startsIn_excl is_word); auto using word_not_space).
    constructor; [|constructor].
    apply bind_lit_mismatch.
    apply (startsIn_excl is_word); auto using word_not_dash.
Qed.

(** The plain edge matches the two ids and stops at the bracket: the
    label group does not take part. *)
Lemma edgeWithLabelMatch_edgeLine :
  groups edgeWithLabelMatch (edgeLine from ws1 ws2 to trail) =
  Some (from, to, None).
Proof.
  unfold groups. rewrite exec_hd.
  enough (H : hd_error (edgeWithLabelMatch (edgeLine from ws1 ws2 to trail))
              = Some ((from, to, None), trail)) by (rewrite H; reflexivity).
  unfold edgeWithLabelMatch. rewrite edgeLine_eq.
  destruct from_run as (tl & Hrun & _).
  eapply bind_hd; [rewrite capture_plus; exact Hrun|].
  destruct ws1_run as (tl1 & Hrun1 & _).
  eapply bind_hd; [exact Hrun1|].
  eapply bind_hd; [apply lit_app|].
  destruct ws2_run as (tl2 & Hrun2 & _).
  eapply bind_hd; [exact Hrun2|].
  destruct to_run as (tl3 & Hrun3 & _).
  eapply bind_hd; [rewrite capture_plus; exact Hrun3|].
  eapply bind_hd; [apply edgeLabel_absent|reflexivity].
  apply (startsIn_excl isOpen); auto using open_not_bar.
Qed.

(** The iteration of the loop on such a line. *)
Lemma processLine_edgeLine (nodes : JsMap.t GraphNode.t) edges :
  processLine (nodes, edges) (edgeLine from ws1 ws2 to trail) =
  (ensureNode to (ensureNode from nodes),
   edges ++ [mkEdge from to None arrow]).
Proof.
  unfold processLine.
  rewrite nodeMatch_edgeLine, edgeWithNodesMatch_edgeLine,
    edgeWithLabelAndNodeMatch_edgeLine, edgeWithLabelMatch_edgeLine.
  reflexivity.
Qed.

End EdgeLine.

Lemma get_ensureNode (k k' : str) (nodes : JsMap.t GraphNode.t) :
  JsMap.get k' (ensureNode k nodes) =
  match JsMap.get k' nodes with
  | Some n => Some n
  | None => if JsString.eqb k k' then Some (defaultNode k) else None
  end.
Proof.
  unfold ensureNode, JsMap.has.
  destruct (JsString.eqb k k') eqn:E.
  - apply eqb_eq in E. subst k'.
    destruct (JsMap.get k nodes) eqn:G; [rewrite G; reflexivity|].
    apply get_set_same.
  - apply eqb_neq in E.
    destruct (JsMap.get k nodes) eqn:G.
    + destruct (JsMap.get k' nodes); reflexivity.
    + rewrite get_set_other by congruence.
      destruct (JsMap.get k' nodes); reflexivity.
Qed.

(** C10.  A line [<from> --> <to><trail>], where the two ids are runs of
    word characters, the arrow may be surrounded by white space and the
    trail starts with an opening bracket (as every bracket form does), is
    consumed by the plain-edge matcher: the three matchers before it fail,
    the plain edge captures the two ids and no label, one unlabelled arrow
    edge is appended, and the registry only has the two ids ensured.  A
    target that was not registered becomes the default rectangle labelled
    with its id; a target that was registered keeps its node.  The trail
    has no part in the result. *)
Theorem plain_edge_discards_bracket_form
    (from ws1 ws2 to trail : str)
    (nodes : JsMap.t GraphNode.t) (edges : list GraphEdge.t) :
  isId from -> isSpaces ws1 -> isSpaces ws2 -> isId to ->
  startsIn isOpen trail = true ->
  let line := edgeLine from ws1 ws2 to trail in
  let after := processLine (nodes, edges) line in
  groups nodeMatch line = None /\
  groups edgeWithNodesMatch line = None /\
  groups edgeWithLabelAndNodeMatch line = None /\
  groups edgeWithLabelMatch line = Some (from, to, None) /\
  snd after =
    edges ++ [GraphEdge.mk (edgeId from to) from to None (Some arrow) None] /\
  fst after = ensureNode to (ensureNode from nodes) /\
  (JsMap.has to nodes = false ->
   JsMap.get to (fst after) =
     Some (GraphNode.mk to to rectangle None None None None)) /\
  (forall n, JsMap.get to nodes = Some n -> JsMap.get to (fst after) = Some n).
Proof.
  intros Hfrom Hws1 Hws2 Hto Htrail line after.
  split; [apply nodeMatch_edgeLine; assumption|].
  split; [apply edgeWithNodesMatch_edgeLine; assumption|].
  split; [apply edgeWithLabelAndNodeMatch_edgeLine; assumption|].
  split; [apply edgeWithLabelMatch_edgeLine; assumption|].
  subst after line. rewrite processLine_edgeLine by assumption. simpl.
  split; [reflexivity|]. split; [reflexivity|].
  rewrite !get_ensureNode, eqb_refl. split.
  - unfold JsMap.has. destruct (JsMap.get to nodes); [discriminate|].
    intros _. destruct (JsString.eqb from to) eqn:E; [|reflexivity].
    apply eqb_eq in E. subst. reflexivity.
  - intros n ->. reflexivity.
Qed.

Lemma plain_edge_discards_bracket_form_witness :
  let after :=
    processLine ([], []) (edgeLine (js "A") (js " ") (js " ") (js "B")
                                   (js "{Decision}")) in
  snd after = [GraphEdge.mk (js "A-B") (js "A") (js "B") None (Some arrow) None]
  /\ JsMap.get (js "B") (fst after) =
     Some (GraphNode.mk (js "B") (js "B") rectangle None None None None).
Proof.
  intros after.
  destruct (plain_edge_discards_bracket_form
              (js "A") (js " ") (js " ") (js "B") (js "{Decision}") [] [])
    as (_ & _ & _ & _ & Hedges & _ & Hnew & _).
  - split; [intros H; discriminate H|repeat constructor].
  - repeat constructor.
  - repeat constructor.
  - split; [intros H; discriminate H|repeat constructor].
  - reflexivity.
  - split; [exact Hedges|]. apply Hnew. reflexivity.
Defined.

(** *** Trimming *)

Lemma trimStart_spaces (ws s : str) :
  isSpaces ws -> trimStart (ws ++ s) = trimStart s.
Proof. induction 1 as [|c ws Hc _ IH]; simpl; [reflexivity|]. rewrite Hc. exact IH. Qed.

Lemma trimStart_stop (s : str) :
  startsIn is_space s = false -> trimStart s = s.
Proof. destruct s as [|c s]; simpl; [reflexivity|]. intros ->. reflexivity. Qed.

(** [trim] removes the white space around a text that neither starts nor
    ends with white space, and nothing else. *)
Lemma trim_surrounded (ws1 core ws2 : str) :
  isSpaces ws1 -> isSpaces ws2 ->
  startsIn is_space core = false -> startsIn is_space (rev core) = false ->
  trim (ws1 ++ core ++ ws2) = core.
Proof.
  intros H1 H2 Hs He. unfold trim, trimEnd.
  rewrite trimStart_spaces by exact H1.
  assert (Hrev : isSpaces (rev ws2)) by (apply Forall_rev; exact H2).
  destruct core as [|c core].
  - simpl. rewrite <- (app_nil_r ws2) at 1.
    rewrite trimStart_spaces by exact H2. simpl.
    reflexivity.
  - rewrite (trimStart_stop ((c :: core) ++ ws2)) by exact Hs.
    rewrite rev_app_distr, trimStart_spaces by exact Hrev.
    rewrite trimStart_stop by exact He. apply rev_involutive.
Qed.

(** *** The double-bracket form in a line

    [parseNodeDefinition] decodes [[[text]]], but the bracket group of the
    line patterns stops at the first closing bracket: a bare declaration
    with a double bracket is not matched by any pattern and the line is
    ignored; as the target of an edge with both bracket forms, the group
    captures up to the first closing bracket only. *)
Lemma double_square_in_a_line :
  parse (js "A[[Sub]]") = ParseResult.mk (Some (Graph.mk [] [])) None /\
  parse (js "A[x] --> B[[y]]") =
  ParseResult.mk
    (Some (Graph.mk
             [GraphNode.mk (js "A") (js "x") rectangle None None None None;
              GraphNode.mk (js "B") (js "[y") rectangle None None None None]
             [GraphEdge.mk (js "A-B") (js "A") (js "B") None (Some arrow)
                None]))
    None.
Proof. split; vm_compute; reflexivity. Qed.

(* ================================================================== *)
(** * Further properties of the parser *)

(** ** Blank input *)

Lemma trimStart_nil_iff (s : str) : trimStart s = [] <-> isSpaces s.
Proof.
  induction s as [|c s IH]; simpl.
  - split; [constructor|reflexivity].
  - destruct (is_space c) eqn:E.
    + rewrite IH. split; [intros H; constructor; assumption|].
      intros H; inversion H; assumption.
    + split; [discriminate|]. intros H; inversion H; congruence.
Qed.

Lemma trimStart_not_space (s : str) : startsIn is_space (trimStart s) = false.
Proof.
  induction s as [|c s IH]; simpl; [reflexivity|].
  destruct (is_space c) eqn:E; [exact IH|]. simpl. exact E.
Qed.

Lemma trimStart_split (s : str) :
  exists w, s = w ++ trimStart s /\ isSpaces w.
Proof.
  induction s as [|c s IH]; simpl.
  - exists []. split; [reflexivity|constructor].
  - destruct (is_space c) eqn:E.
    + destruct IH as (w & Hw & Hsp). exists (c :: w). split.
      * simpl. rewrite <- Hw. reflexivity.
      * constructor; assumption.
    + exists []. split; [reflexivity|constructor].
Qed.

Lemma trim_nil_iff (s : str) : trim s = [] <-> isSpaces s.
Proof.
  unfold trim, trimEnd. split.
  - intros H. apply (f_equal (@rev N)) in H. rewrite rev_involutive in H.
    simpl in H. apply trimStart_nil_iff in H.
    apply Forall_rev in H. rewrite rev_involutive in H.
    pose proof (trimStart_not_space s) as Hns.
    apply trimStart_nil_iff. destruct (trimStart s) as [|c r]; [reflexivity|].
    inversion H; subst. simpl in Hns. congruence.
  - intros H. apply trimStart_nil_iff in H. rewrite H. reflexivity.
Qed.

(** X1.  [parse] reports 'Empty Mermaid code' exactly on the inputs that
    consist of white space only (the empty input among them); every other
    input yields a graph and no error. *)
Theorem parse_blank_iff_error (mermaidCode : str) :
  (isSpaces mermaidCode ->
   parse mermaidCode =
   ParseResult.mk None (Some (ParseError.mk (js "Empty Mermaid code")))) /\
  (~ isSpaces mermaidCode ->
   exists g, parse mermaidCode = ParseResult.mk (Some g) None).
Proof.
  unfold parse, parseWith, parseBody. split; intros H.
  - apply trim_nil_iff in H. rewrite H. reflexivity.
  - destruct (trim mermaidCode) eqn:E.
    + exfalso. apply H. apply trim_nil_iff. exact E.
    + simpl. destruct (parseFlowchartContent _). eexists. reflexivity.
Qed.

Lemma parse_blank_iff_error_witness :
  parse (js "  ") =
    ParseResult.mk None (Some (ParseError.mk (js "Empty Mermaid code"))) /\
  exists g, parse (js " %% only a comment") = ParseResult.mk (Some g) None.
Proof.
  split.
  - apply (proj1 (parse_blank_iff_error (js "  "))). repeat constructor.
  - apply (proj2 (parse_blank_iff_error (js " %% only a comment"))).
    intros H. inversion H as [|? ? _ H']. inversion H' as [|? ? Hc _].
    vm_compute in Hc. discriminate Hc.
Defined.

(** ** Lines *)

Lemma split_nonempty (sep : N) (s : str) : split sep s <> [].
Proof.
  destruct s as [|c s]; simpl; [discriminate|].
  destruct (N.eqb c sep); [discriminate|].
  destruct (split sep s); discriminate.
Qed.

Lemma split_app (sep : N) (a b : str) :
  split sep (a ++ sep :: b) = split sep a ++ split sep b.
Proof.
  induction a as [|c a IH]; simpl.
  - rewrite N.eqb_refl. reflexivity.
  - destruct (N.eqb c sep); [rewrite IH; reflexivity|].
    rewrite IH. pose proof (split_nonempty sep a).
    destruct (split sep a); [congruence|reflexivity].
Qed.

Lemma contentLines_app (a b : str) :
  contentLines (a ++ LF :: b) = contentLines a ++ contentLines b.
Proof.
  unfold contentLines. rewrite split_app, map_app, filter_app. reflexivity.
Qed.

(** A trimmed text neither starts nor ends with white space. *)
Lemma trim_no_surrounding_space (s : str) :
  startsIn is_space (trim s) = false /\
  startsIn is_space (rev (trim s)) = false.
Proof.
  unfold trim, trimEnd. rewrite rev_involutive.
  split; [|apply trimStart_not_space].
  pose proof (trimStart_not_space s) as Hs.
  destruct (trimStart_split (rev (trimStart s))) as (w & Hw & _).
  apply (f_equal (@rev N)) in Hw. rewrite rev_involutive, rev_app_distr in Hw.
  rewrite Hw in Hs.
  destruct (rev (trimStart (rev (trimStart s)))); [reflexivity|exact Hs].
Qed.

(** X2.  The content is read line by line: every line kept is trimmed,
    non-empty and not a [%%] comment, and the content of two texts joined
    by a line feed is processed as the first text and then, from the state
    reached, the second. *)
Theorem content_line_by_line (a b : str) :
  Forall (fun line =>
            line <> [] /\ startsWith line (js "%%") = false /\
            startsIn is_space line = false /\
            startsIn is_space (rev line) = false)
         (contentLines a) /\
  runLines (contentLines (a ++ LF :: b)) =
  fold_left processLine (contentLines b) (runLines (contentLines a)).
Proof.
  split.
  - unfold contentLines. apply Forall_forall. intros line Hin.
    apply filter_In in Hin. destruct Hin as [Hin Hkeep].
    apply in_map_iff in Hin. destruct Hin as (raw & <- & _).
    apply andb_true_iff in Hkeep. destruct Hkeep as [Hne Hcomment].
    split; [intros E; rewrite E in Hne; discriminate|].
    split; [destruct (startsWith _ _); [discriminate|reflexivity]|].
    apply trim_no_surrounding_space.
  - unfold runLines. rewrite contentLines_app, fold_left_app. reflexivity.
Qed.

(** ** Lines that no pattern matches *)

Lemma plus_stop (c : N -> bool) (s : str) :
  startsIn c s = false -> plus c s = [].
Proof.
  destruct s as [|x s]; simpl; [reflexivity|]. intros ->. reflexivity.
Qed.

Lemma bind_id_stop {A} (f : str -> matcher A) (s : str) :
  startsIn is_word s = false -> bind (capture (plus is_word)) f s = [].
Proof.
  intros H. apply bind_nil. rewrite capture_plus, plus_stop by exact H.
  constructor.
Qed.

(** X3.  Every pattern starts with an id: a line that does not start with
    a word character changes neither the registry nor the edges. *)
Theorem line_without_leading_id_ignored (st : ParseState) (line : str) :
  startsIn is_word line = false -> processLine st line = st.
Proof.
  intros H. destruct st as [nodes edges]. unfold processLine.
  rewrite (fails_groups nodeMatch line) by (apply bind_id_stop; exact H).
  rewrite (fails_groups edgeWithNodesMatch line)
    by (apply bind_id_stop; exact H).
  rewrite (fails_groups edgeWithLabelAndNodeMatch line)
    by (apply bind_id_stop; exact H).
  rewrite (fails_groups edgeWithLabelMatch line)
    by (apply bind_id_stop; exact H).
  rewrite (fails_groups dashedEdgeMatch line)
    by (apply bind_id_stop; exact H).
  reflexivity.
Qed.

Lemma line_without_leading_id_ignored_witness :
  processLine ([(js "A", defaultNode (js "A"))], []) (js "--> B[x]") =
  ([(js "A", defaultNode (js "A"))], []).
Proof.
  apply (line_without_leading_id_ignored
           ([(js "A", defaultNode (js "A"))], []) (js "--> B[x]")).
  reflexivity.
Defined.

(** ** The five line forms *)

Section MatcherSteps.

Context {A B : Type}.

(** A step whose first alternative goes through and whose later
    alternatives all fail. *)
Lemma bind_first_only (m : matcher A) (f : A -> matcher B) (s : str) a r tl :
  m s = (a, r) :: tl ->
  Forall (fun ar => f (fst ar) (snd ar) = []) tl ->
  bind m f s = f a r.
Proof.
  intros Hm Htl. unfold bind. rewrite Hm. simpl.
  assert (E : flat_map (fun ar => f (fst ar) (snd ar)) tl = []).
  { clear Hm. induction Htl as [|ar l Har _ IH]; simpl; [reflexivity|].
    rewrite Har, IH. reflexivity. }
  rewrite E. apply app_nil_r.
Qed.

End MatcherSteps.

Lemma capture_single {A} (m : matcher A) (d r : str) (a : A) :
  m (d ++ r) = [(a, r)] -> capture m (d ++ r) = [(d, r)].
Proof.
  intros H. unfold capture. rewrite H. simpl.
  rewrite length_app, Nat.add_sub, firstn_app, Nat.sub_diag, firstn_all.
  simpl. rewrite app_nil_r. reflexivity.
Qed.

Lemma lit_fail (p s : str) : startsWith s p = false -> lit p s = [].
Proof. unfold lit. intros ->. reflexivity. Qed.

Lemma not_stop_eqb (stop : N) (s : str) :
  startsIn (is_not stop) s = true -> startsIn (N.eqb stop) s = false.
Proof.
  destruct s as [|x s]; simpl; [discriminate|]. unfold is_not.
  rewrite N.eqb_sym. destruct (N.eqb stop x); [discriminate|reflexivity].
Qed.

Lemma stop_not (stop : N) (s : str) :
  startsIn (is_not stop) (stop :: s) = false.
Proof. simpl. unfold is_not. rewrite N.eqb_refl. reflexivity. Qed.

(** One alternative of the bracket group, on its own form. *)
Lemma bracket_alternative (o c' : str) (stop : N) (t rest : str) :
  bracketBody stop t ->
  bind (lit o) (fun _ => bind (plus (is_not stop))
                              (fun _ => lit (stop :: c')))
       (o ++ t ++ (stop :: c') ++ rest) = [(tt, rest)].
Proof.
  intros [Hne Ht].
  etransitivity; [apply bind_single; apply lit_app|].
  destruct (plus_run (is_not stop) t ((stop :: c') ++ rest) Hne Ht
              (stop_not stop _)) as (tl & Hrun & Htl).
  etransitivity; [eapply bind_first_only; [exact Hrun|]|].
  - eapply Forall_impl; [|exact Htl]. intros pr Hpr.
    apply lit_mismatch. apply not_stop_eqb. exact Hpr.
  - apply lit_app.
Qed.

Lemma BracketForm_open (def rest : str) :
  BracketForm def -> startsIn isOpen (def ++ rest) = true.
Proof. intros [t _|t _|t _]; reflexivity. Qed.

(** On a bracket form followed by anything, the bracket group matches in
    exactly one way: the form itself. *)
Lemma bracketForm_exact (def rest : str) :
  BracketForm def -> bracketForm (def ++ rest) = [(def, rest)].
Proof.
  intros H. unfold bracketForm. apply (capture_single _ def rest tt).
  unfold alt. destruct H as [t Ht|t Ht|t Ht].
  - replace ((js "[" ++ t ++ js "]") ++ rest)
      with (js "[" ++ t ++ js "]" ++ rest)
      by (rewrite <- !app_assoc; reflexivity).
    assert (E : (lit (js "[") ;;; plus (is_not 93) ;;; lit (js "]"))
                  (js "[" ++ t ++ js "]" ++ rest) = [(tt, rest)])
      by exact (bracket_alternative (js "[") [] 93 t rest Ht).
    rewrite E. jslit. rewrite !bind_lit_mismatch by reflexivity. reflexivity.
  - replace ((js "((" ++ t ++ js "))") ++ rest)
      with (js "((" ++ t ++ js "))" ++ rest)
      by (rewrite <- !app_assoc; reflexivity).
    assert (E : (lit (js "((") ;;; plus (is_not 41) ;;; lit (js "))"))
                  (js "((" ++ t ++ js "))" ++ rest) = [(tt, rest)])
      by exact (bracket_alternative (js "((") [41%N] 41 t rest Ht).
    rewrite E. jslit. rewrite !bind_lit_mismatch by reflexivity. reflexivity.
  - replace ((js "{" ++ t ++ js "}") ++ rest)
      with (js "{" ++ t ++ js "}" ++ rest)
      by (rewrite <- !app_assoc; reflexivity).
    assert (E : (lit (js "{") ;;; plus (is_not 125) ;;; lit (js "}"))
                  (js "{" ++ t ++ js "}" ++ rest) = [(tt, rest)])
      by exact (bracket_alternative (js "{") [] 125 t rest Ht).
    rewrite E. jslit. rewrite !bind_lit_mismatch by reflexivity. reflexivity.
Qed.

Lemma id_run (id rest : str) :
  isId id -> startsIn is_word rest = false ->
  exists tl, capture (plus is_word) (id ++ rest) = (id, rest) :: tl /\
             Forall (fun pr => startsIn is_word (snd pr) = true) tl.
Proof.
  intros [Hne Hid] Hrest. rewrite capture_plus. apply plus_run; assumption.
Qed.

Lemma body_run (stop : N) (t rest : str) :
  bracketBody stop t ->
  exists tl,
    capture (plus (is_not stop)) (t ++ stop :: rest) = (t, stop :: rest) :: tl /\
    Forall (fun pr => startsIn (is_not stop) (snd pr) = true) tl.
Proof.
  intros [Hne Ht]. rewrite capture_plus. apply plus_run; auto.
  apply stop_not.
Qed.

Lemma spaces_then_arrow (ws rest : str) :
  isSpaces ws -> startsIn is_word (ws ++ 45%N :: rest) = false /\
                 startsIn isOpen (ws ++ 45%N :: rest) = false.
Proof.
  intros H. split.
  - apply (startsIn_after is_space); auto using space_not_word.
  - apply (startsIn_after is_space); auto using space_not_open.
Qed.

Lemma no_bracket_after_id {B} (f : str -> str -> matcher B) (id rest : str) :
  isId id -> startsIn is_word rest = false -> startsIn isOpen rest = false ->
  bind (capture (plus is_word)) (fun id => bind bracketForm (f id))
       (id ++ rest) = [].
Proof.
  intros Hid Hw Ho. apply bind_nil.
  destruct (id_run id rest Hid Hw) as (tl & -> & Htl). constructor.
  - apply bind_bracketForm_none. exact Ho.
  - eapply Forall_impl; [|exact Htl]. intros pr Hpr.
    apply bind_bracketForm_none.
    apply (startsIn_excl is_word); auto using word_not_open.
Qed.

(** After the first id and white space, an arrow that is not there. *)
Lemma no_arrow_after_id {B} (arrow' : str) (k : str -> unit -> matcher B)
    (id ws r : str) :
  isId id -> isSpaces ws ->
  startsIn is_space r = false -> startsIn is_word r = false ->
  lit (45%N :: arrow') r = [] ->
  bind (capture (plus is_word))
       (fun from => bind (star is_space)
                         (fun _ => bind (lit (45%N :: arrow')) (k from)))
       (id ++ ws ++ r) = [].
Proof.
  intros Hid Hws Hs Hw Hlit. apply bind_nil.
  assert (Hw' : startsIn is_word (ws ++ r) = false)
    by (apply (startsIn_after is_space); auto using space_not_word).
  destruct (id_run id (ws ++ r) Hid Hw') as (tl & -> & Htl). constructor.
  - cbn [fst snd]. apply bind_nil.
    destruct (star_run is_space ws r Hws Hs) as (tl1 & -> & Htl1).
    constructor.
    + cbn [fst snd]. apply bind_nil. rewrite Hlit. constructor.
    + eapply Forall_impl; [|exact Htl1]. intros pr Hpr.
      apply bind_lit_mismatch.
      apply (startsIn_excl is_space); auto using space_not_dash.
  - eapply Forall_impl; [|exact Htl]. intros pr Hpr.
    apply bind_nil. rewrite star_stop
      by (apply (startsIn_excl is_word); auto using word_not_space).
    constructor; [|constructor].
    apply bind_lit_mismatch.
    apply (startsIn_excl is_word); auto using word_not_dash.
Qed.

(** The optional label group takes the label that follows, if any. *)
Lemma edgeLabel_follows (label : option str) (trail : str) :
  labelFollows label trail ->
  exists tl, edgeLabel (labelText label ++ trail) = (label, trail) :: tl.
Proof.
  destruct label as [l|]; unfold labelFollows, labelText; intros H.
  - unfold edgeLabel, opt.
    assert (E : (lit (js "|") ;;; label <- capture (plus (is_not 124)) ;;
                 lit (js "|") ;;; ret label)
                  ((js "|" ++ l ++ js "|") ++ trail) = [(l, trail)]).
    { rewrite <- !app_assoc.
      etransitivity; [apply bind_single; apply lit_app|].
      destruct (body_run 124 l trail H) as (tl & Hrun & Htl).
      etransitivity; [eapply bind_first_only; [exact Hrun|]|].
      - eapply Forall_impl; [|exact Htl]. intros pr Hpr.
        apply bind_lit_mismatch. apply not_stop_eqb. exact Hpr.
      - cbn [fst snd]. etransitivity;
          [apply bind_single; apply (lit_app (js "|") trail)|].
        reflexivity. }
    rewrite E. simpl. eauto.
  - simpl. rewrite edgeLabel_absent by exact H. eauto.
Qed.

(** The plain and the dashed pattern have one shape and differ in the
    arrow. *)
Lemma edge_shape_match (arrow' : str) (from ws1 ws2 to : str)
    (label : option str) (trail : str) :
  isId from -> isSpaces ws1 -> isSpaces ws2 -> isId to ->
  edgeTail label trail ->
  hd_error
    ((from <- capture (plus is_word) ;;
      star is_space ;;; lit (45%N :: arrow') ;;; star is_space ;;;
      to <- capture (plus is_word) ;;
      label <- edgeLabel ;;
      ret (from, to, label))
       (from ++ ws1 ++ (45%N :: arrow') ++ ws2 ++ to ++
        labelText label ++ trail))
  = Some ((from, to, label), trail).
Proof.
  intros Hfrom Hws1 Hws2 Hto [Hlabel Htail].
  destruct (spaces_then_arrow ws1 (arrow' ++ ws2 ++ to ++ labelText label ++ trail)
              Hws1) as [Hw _].
  destruct (id_run from _ Hfrom Hw) as (tl & Hrun & _).
  eapply bind_hd; [exact Hrun|].
  destruct (star_run is_space ws1
              ((45%N :: arrow') ++ ws2 ++ to ++ labelText label ++ trail)
              Hws1 eq_refl) as (tl1 & Hrun1 & _).
  eapply bind_hd; [exact Hrun1|].
  eapply bind_hd; [apply lit_app|].
  assert (Hns : startsIn is_space (to ++ labelText label ++ trail) = false)
    by (apply startsIn_id; auto using word_not_space).
  destruct (star_run is_space ws2 _ Hws2 Hns) as (tl2 & Hrun2 & _).
  eapply bind_hd; [exact Hrun2|].
  destruct (id_run to _ Hto Htail) as (tl3 & Hrun3 & _).
  eapply bind_hd; [exact Hrun3|].
  destruct (edgeLabel_follows label trail Hlabel) as (tl4 & Hrun4).
  eapply bind_hd; [exact Hrun4|reflexivity].
Qed.

Lemma BracketForm_not_word (def rest : str) :
  BracketForm def -> startsIn is_word (def ++ rest) = false.
Proof.
  intros H. apply (startsIn_excl isOpen); auto using open_not_word.
  apply BracketForm_open. exact H.
Qed.

(** *** A bare declaration *)

Lemma nodeMatch_declaration (id def : str) :
  isId id -> BracketForm def ->
  groups nodeMatch (id ++ def) = Some (id, def).
Proof.
  intros Hid Hdef. unfold groups. rewrite exec_hd.
  enough (H : hd_error (nodeMatch (id ++ def)) = Some ((id, def), []))
    by (rewrite H; reflexivity).
  unfold nodeMatch.
  assert (Hw : startsIn is_word def = false)
    by (rewrite <- (app_nil_r def); apply BracketForm_not_word; exact Hdef).
  destruct (id_run id def Hid Hw) as (tl & Hrun & _).
  eapply bind_hd; [exact Hrun|].
  eapply bind_hd;
    [rewrite <- (app_nil_r def) at 1; apply bracketForm_exact; exact Hdef|].
  reflexivity.
Qed.

Lemma body_not_bracketed (t : str) :
  bracketBody 93 t -> forall t', t <> js "[" ++ t' ++ js "]".
Proof.
  intros [_ Ht] t' E. subst t. apply Forall_forall with (x := 93%N) in Ht.
  - discriminate Ht.
  - simpl. right. apply in_or_app. right. left. reflexivity.
Qed.

(** X4.  A line that is an id followed by a bracket form declares the
    node: [A[text]] registers a rectangle, [A((text))] a circle and
    [A{text}] a diamond, each labelled with the text trimmed, overwriting
    whatever the id held and leaving the edges alone. *)
Theorem bare_declaration_line (id t : str)
    (nodes : JsMap.t GraphNode.t) (edges : list GraphEdge.t) :
  isId id ->
  (bracketBody 93 t ->
   processLine (nodes, edges) (id ++ js "[" ++ t ++ js "]") =
   (JsMap.set id (GraphNode.mk id (trim t) rectangle None None None None)
              nodes, edges)) /\
  (bracketBody 41 t ->
   processLine (nodes, edges) (id ++ js "((" ++ t ++ js "))") =
   (JsMap.set id (GraphNode.mk id (trim t) circle None None None None)
              nodes, edges)) /\
  (bracketBody 125 t ->
   processLine (nodes, edges) (id ++ js "{" ++ t ++ js "}") =
   (JsMap.set id (GraphNode.mk id (trim t) diamond None None None None)
              nodes, edges)).
Proof.
  intros Hid. repeat split; intros Ht; unfold processLine.
  - rewrite (nodeMatch_declaration id _ Hid (SquareForm t Ht)).
    rewrite parseNodeDefinition_square by (apply body_not_bracketed; exact Ht).
    reflexivity.
  - rewrite (nodeMatch_declaration id _ Hid (RoundForm t Ht)).
    rewrite parseNodeDefinition_circle. reflexivity.
  - rewrite (nodeMatch_declaration id _ Hid (CurlyForm t Ht)).
    rewrite parseNodeDefinition_diamond. reflexivity.
Qed.

Lemma bare_declaration_line_witness :
  processLine ([], []) (js "A(( Circle ))") =
  ([(js "A", GraphNode.mk (js "A") (js "Circle") circle None None None None)],
   []).
Proof.
  apply (proj1 (proj2 (bare_declaration_line (js "A") (js " Circle ") [] []
                         ltac:(split; [intros H; discriminate H
                                      |repeat constructor])))).
  split; [intros H; discriminate H|repeat constructor].
Defined.

(** *** An edge with both bracket forms *)

Section NodesLine.

Variables from fromDef ws1 ws2 to toDef trail : str.
Variable label : option str.
Hypothesis Hfrom : isId from.
Hypothesis HfromDef : BracketForm fromDef.
Hypothesis Hws1 : isSpaces ws1.
Hypothesis Hws2 : isSpaces ws2.
Hypothesis Hto : isId to.
Hypothesis HtoDef : BracketForm toDef.
Hypothesis Hlabel : labelFollows label trail.

Local Notation "'line'" :=
  (nodesLine from fromDef ws1 ws2 to toDef label trail).
Local Notation "'afterToDef'" := (labelText label ++ trail).
Local Notation "'afterFromDef'" :=
  (ws1 ++ js "-->" ++ ws2 ++ to ++ toDef ++ afterToDef).

Lemma nodeMatch_nodesLine : groups nodeMatch line = None.
Proof.
  apply fails_groups. unfold nodeMatch, nodesLine. apply bind_nil.
  destruct (id_run from (fromDef ++ afterFromDef) Hfrom
              (BracketForm_not_word fromDef afterFromDef HfromDef))
    as (tl & -> & Htl). constructor.
  - cbn [fst snd]. apply bind_nil. rewrite bracketForm_exact by exact HfromDef.
    constructor; [|constructor]. cbn [fst snd]. apply bind_nil.
    destruct ws1; simpl; constructor.
  - eapply Forall_impl; [|exact Htl]. intros pr Hpr.
    apply bind_bracketForm_none.
    apply (startsIn_excl is_word); auto using word_not_open.
Qed.

Lemma edgeWithNodesMatch_nodesLine :
  groups edgeWithNodesMatch line =
  Some (from, fromDef, to, toDef, label).
Proof.
  unfold groups. rewrite exec_hd.
  enough (H : hd_error (edgeWithNodesMatch line)
              = Some ((from, fromDef, to, toDef, label), trail))
    by (rewrite H; reflexivity).
  unfold edgeWithNodesMatch, nodesLine.
  destruct (id_run from (fromDef ++ afterFromDef) Hfrom
              (BracketForm_not_word fromDef afterFromDef HfromDef))
    as (tl & Hrun & _).
  eapply bind_hd; [exact Hrun|].
  eapply bind_hd; [apply bracketForm_exact; exact HfromDef|].
  destruct (star_run is_space ws1
              (js "-->" ++ ws2 ++ to ++ toDef ++ labelText label ++ trail)
              Hws1 eq_refl) as (tl1 & Hrun1 & _).
  eapply bind_hd; [exact Hrun1|].
  eapply bind_hd; [apply lit_app|].
  assert (Hns : startsIn is_space (to ++ toDef ++ labelText label ++ trail)
                = false)
    by (apply startsIn_id; auto using word_not_space).
  destruct (star_run is_space ws2 _ Hws2 Hns) as (tl2 & Hrun2 & _).
  eapply bind_hd; [exact Hrun2|].
  destruct (id_run to (toDef ++ afterToDef) Hto
              (BracketForm_not_word toDef afterToDef HtoDef))
    as (tl3 & Hrun3 & _).
  eapply bind_hd; [exact Hrun3|].
  eapply bind_hd; [apply bracketForm_exact; exact HtoDef|].
  destruct (edgeLabel_follows label trail Hlabel) as (tl4 & Hrun4).
  eapply bind_hd; [exact Hrun4|reflexivity].
Qed.

End NodesLine.

(** X5.  A line [<from><fromDef> --> <to><toDef>] with an optional
    [|label|] after it is consumed by the pattern with both bracket forms:
    both nodes are overwritten from their bracket forms, the source first,
    and one arrow edge is appended, labelled with the label trimmed when
    there is one. *)
Theorem nodes_edge_line (from fromDef ws1 ws2 to toDef trail : str)
    (label : option str)
    (nodes : JsMap.t GraphNode.t) (edges : list GraphEdge.t) :
  isId from -> BracketForm fromDef -> isSpaces ws1 -> isSpaces ws2 ->
  isId to -> BracketForm toDef -> labelFollows label trail ->
  processLine (nodes, edges)
              (nodesLine from fromDef ws1 ws2 to toDef label trail) =
  (JsMap.set to (parseNodeDefinition to toDef)
     (JsMap.set from (parseNodeDefinition from fromDef) nodes),
   edges ++ [GraphEdge.mk (edgeId from to) from to (option_map trim label)
               (Some arrow) None]).
Proof.
  intros. unfold processLine.
  rewrite nodeMatch_nodesLine, edgeWithNodesMatch_nodesLine by assumption.
  reflexivity.
Qed.

Lemma nodes_edge_line_witness :
  processLine ([], []) (js "A[Start] --> B{Decision}| go |") =
  ([(js "A", GraphNode.mk (js "A") (js "Start") rectangle
               None None None None);
    (js "B", GraphNode.mk (js "B") (js "Decision") diamond
               None None None None)],
   [GraphEdge.mk (js "A-B") (js "A") (js "B") (Some (js "go"))
      (Some arrow) None]).
Proof.
  apply (nodes_edge_line (js "A") (js "[Start]") (js " ") (js " ")
           (js "B") (js "{Decision}") [] (Some (js " go ")) [] []).
  - split; [intros H; discriminate H|repeat constructor].
  - apply (SquareForm (js "Start")).
    split; [intros H; discriminate H|repeat constructor].
  - repeat constructor.
  - repeat constructor.
  - split; [intros H; discriminate H|repeat constructor].
  - apply (CurlyForm (js "Decision")).
    split; [intros H; discriminate H|repeat constructor].
  - split; [intros H; discriminate H|repeat constructor].
Defined.

(** *** A labelled edge with a bracketed target *)

Section LabelledLine.

Variables from ws1 ws2 label ws3 to toDef : str.
Hypothesis Hfrom : isId from.
Hypothesis Hws1 : isSpaces ws1.
Hypothesis Hws2 : isSpaces ws2.
Hypothesis Hlabel : bracketBody 124 label.
Hypothesis Hws3 : isSpaces ws3.
Hypothesis Hto : isId to.
Hypothesis HtoDef : BracketForm toDef.

Local Notation "'line'" := (labelledLine from ws1 ws2 label ws3 to toDef).
Local Notation "'afterLabel'" := (ws3 ++ to ++ toDef).
Local Notation "'afterArrow'" := (ws2 ++ js "|" ++ label ++ js "|" ++ afterLabel).
Local Notation "'afterFrom'" := (ws1 ++ js "-->" ++ afterArrow).

Lemma no_bracket_in_labelledLine {B} (f : str -> str -> matcher B) :
  bind (capture (plus is_word)) (fun id => bind bracketForm (f id)) line = [].
Proof.
  destruct (spaces_then_arrow ws1 (js "->" ++ afterArrow) Hws1) as [Hw Ho].
  apply (no_bracket_after_id f from afterFrom Hfrom Hw Ho).
Qed.

Lemma edgeWithLabelAndNodeMatch_labelledLine :
  groups edgeWithLabelAndNodeMatch line = Some (from, label, to, toDef).
Proof.
  unfold groups. rewrite exec_hd.
  enough (H : hd_error (edgeWithLabelAndNodeMatch line)
              = Some ((from, label, to, toDef), []))
    by (rewrite H; reflexivity).
  unfold edgeWithLabelAndNodeMatch, labelledLine.
  destruct (spaces_then_arrow ws1 (js "->" ++ afterArrow) Hws1) as [Hw _].
  destruct (id_run from afterFrom Hfrom Hw) as (tl & Hrun & _).
  eapply bind_hd; [exact Hrun|].
  destruct (star_run is_space ws1 (js "-->" ++ afterArrow) Hws1 eq_refl)
    as (tl1 & Hrun1 & _).
  eapply bind_hd; [exact Hrun1|].
  eapply bind_hd; [apply lit_app|].
  destruct (star_run is_space ws2 (js "|" ++ label ++ js "|" ++ afterLabel)
              Hws2 eq_refl) as (tl2 & Hrun2 & _).
  eapply bind_hd; [exact Hrun2|].
  eapply bind_hd; [apply lit_app|].
  destruct (body_run 124 label afterLabel Hlabel) as (tl3 & Hrun3 & _).
  eapply bind_hd; [exact Hrun3|].
  eapply bind_hd; [apply (lit_app (js "|") afterLabel)|].
  assert (Hns : startsIn is_space (to ++ toDef) = false)
    by (apply startsIn_id; auto using word_not_space).
  destruct (star_run is_space ws3 (to ++ toDef) Hws3 Hns)
    as (tl4 & Hrun4 & _).
  eapply bind_hd; [exact Hrun4|].
  assert (Hnw : startsIn is_word toDef = false)
    by (rewrite <- (app_nil_r toDef); apply BracketForm_not_word;
        exact HtoDef).
  destruct (id_run to toDef Hto Hnw) as (tl5 & Hrun5 & _).
  eapply bind_hd; [exact Hrun5|].
  eapply bind_hd;
    [rewrite <- (app_nil_r toDef) at 1; apply bracketForm_exact;
     exact HtoDef|].
  reflexivity.
Qed.

End LabelledLine.

(** X6.  A line [<from> -->|label| <to><toDef>] is consumed by the
    pattern for a labelled edge with a bracketed target: the source is
    ensured (and keeps its node if it has one), the target is overwritten
    from its bracket form, and one arrow edge is appended with the label
    trimmed. *)
Theorem labelled_edge_line (from ws1 ws2 label ws3 to toDef : str)
    (nodes : JsMap.t GraphNode.t) (edges : list GraphEdge.t) :
  isId from -> isSpaces ws1 -> isSpaces ws2 -> bracketBody 124 label ->
  isSpaces ws3 -> isId to -> BracketForm toDef ->
  processLine (nodes, edges)
              (labelledLine from ws1 ws2 label ws3 to toDef) =
  (JsMap.set to (parseNodeDefinition to toDef) (ensureNode from nodes),
   edges ++ [GraphEdge.mk (edgeId from to) from to (Some (trim label))
               (Some arrow) None]).
Proof.
  intros. unfold processLine.
  rewrite (fails_groups nodeMatch)
    by (apply no_bracket_in_labelledLine; assumption).
  rewrite (fails_groups edgeWithNodesMatch)
    by (apply no_bracket_in_labelledLine; assumption).
  rewrite edgeWithLabelAndNodeMatch_labelledLine by assumption.
  reflexivity.
Qed.

Lemma labelled_edge_line_witness :
  processLine ([], []) (js "B -->|Yes| C[Process A]") =
  ([(js "B", defaultNode (js "B"));
    (js "C", GraphNode.mk (js "C") (js "Process A") rectangle
               None None None None)],
   [GraphEdge.mk (js "B-C") (js "B") (js "C") (Some (js "Yes"))
      (Some arrow) None]).
Proof.
  apply (labelled_edge_line (js "B") (js " ") [] (js "Yes") (js " ")
           (js "C") (js "[Process A]") [] []).
  - split; [intros H; discriminate H|repeat constructor].
  - repeat constructor.
  - constructor.
  - split; [intros H; discriminate H|repeat constructor].
  - repeat constructor.
  - split; [intros H; discriminate H|repeat constructor].
  - apply (SquareForm (js "Process A")).
    split; [intros H; discriminate H|repeat constructor].
Defined.

(** *** A plain edge and a dashed edge *)

Section ArrowLines.

Variables from ws1 ws2 to trail : str.
Variable label : option str.
Hypothesis Hfrom : isId from.
Hypothesis Hws1 : isSpaces ws1.
Hypothesis Hws2 : isSpaces ws2.
Hypothesis Hto : isId to.
Hypothesis Htail : edgeTail label trail.

Local Notation "'afterTo'" := (labelText label ++ trail).

Lemma no_bracket_in_arrowLine {B} (f : str -> str -> matcher B)
    (arrow' : str) :
  bind (capture (plus is_word)) (fun id => bind bracketForm (f id))
       (from ++ ws1 ++ (45%N :: arrow') ++ ws2 ++ to ++ afterTo) = [].
Proof.
  destruct (spaces_then_arrow ws1 (arrow' ++ ws2 ++ to ++ afterTo) Hws1)
    as [Hw Ho].
  apply (no_bracket_after_id f from _ Hfrom Hw Ho).
Qed.

Lemma processLine_plainLine (nodes : JsMap.t GraphNode.t) edges :
  processLine (nodes, edges) (plainLine from ws1 ws2 to label trail) =
  (ensureNode to (ensureNode from nodes),
   edges ++ [mkEdge from to (option_map trim label) arrow]).
Proof.
  unfold processLine.
  rewrite (fails_groups nodeMatch)
    by apply (no_bracket_in_arrowLine _ (js "->")).
  rewrite (fails_groups edgeWithNodesMatch)
    by apply (no_bracket_in_arrowLine _ (js "->")).
  change (plainLine from ws1 ws2 to label trail)
    with (edgeLine from ws1 ws2 to afterTo).
  rewrite (edgeWithLabelAndNodeMatch_edgeLine from ws1 ws2 to afterTo)
    by assumption.
  change (edgeLine from ws1 ws2 to afterTo)
    with (plainLine from ws1 ws2 to label trail).
  assert (E : groups edgeWithLabelMatch (plainLine from ws1 ws2 to label trail)
              = Some (from, to, label)).
  { unfold groups. rewrite exec_hd.
    assert (H : hd_error (edgeWithLabelMatch
                            (plainLine from ws1 ws2 to label trail))
                = Some ((from, to, label), trail))
      by exact (edge_shape_match (js "->") from ws1 ws2 to label trail
                  Hfrom Hws1 Hws2 Hto Htail).
    rewrite H. reflexivity. }
  rewrite E. reflexivity.
Qed.

Lemma processLine_dashedLine (nodes : JsMap.t GraphNode.t) edges :
  processLine (nodes, edges) (dashedLine from ws1 ws2 to label trail) =
  (ensureNode to (ensureNode from nodes),
   edges ++ [mkEdge from to (option_map trim label) dashed]).
Proof.
  unfold processLine.
  rewrite (fails_groups nodeMatch)
    by apply (no_bracket_in_arrowLine _ (js ".->")).
  rewrite (fails_groups edgeWithNodesMatch)
    by apply (no_bracket_in_arrowLine _ (js ".->")).
  rewrite (fails_groups edgeWithLabelAndNodeMatch)
    by (apply (no_arrow_after_id (js "->") _ from ws1
                 (js "-.->" ++ ws2 ++ to ++ afterTo)); auto).
  rewrite (fails_groups edgeWithLabelMatch)
    by (apply (no_arrow_after_id (js "->") _ from ws1
                 (js "-.->" ++ ws2 ++ to ++ afterTo)); auto).
  assert (E : groups dashedEdgeMatch (dashedLine from ws1 ws2 to label trail)
              = Some (from, to, label)).
  { unfold groups. rewrite exec_hd.
    assert (H : hd_error (dashedEdgeMatch
                            (dashedLine from ws1 ws2 to label trail))
                = Some ((from, to, label), trail))
      by exact (edge_shape_match (js ".->") from ws1 ws2 to label trail
                  Hfrom Hws1 Hws2 Hto Htail).
    rewrite H. reflexivity. }
  rewrite E. reflexivity.
Qed.

End ArrowLines.

Lemma ensured_pair (from to : str) (nodes : JsMap.t GraphNode.t) :
  (forall k n, JsMap.get k nodes = Some n ->
               JsMap.get k (ensureNode to (ensureNode from nodes)) = Some n) /\
  (JsMap.get from nodes = None ->
   JsMap.get from (ensureNode to (ensureNode from nodes)) =
   Some (defaultNode from)) /\
  (JsMap.get to nodes = None ->
   JsMap.get to (ensureNode to (ensureNode from nodes)) =
   Some (defaultNode to)).
Proof.
  split; [|split].
  - intros k n H. rewrite !get_ensureNode, H. reflexivity.
  - intros H. rewrite !get_ensureNode, H, eqb_refl. reflexivity.
  - intros H. rewrite !get_ensureNode, H, eqb_refl.
    destruct (JsString.eqb from to) eqn:E; [|reflexivity].
    apply eqb_eq in E. subst. reflexivity.
Qed.

(** X7.  A line [<from> --> <to>], with an optional [|label|] after it,
    is consumed by the plain-edge pattern: one arrow edge is appended,
    labelled with the label trimmed when there is one; nodes that were
    registered keep what they hold, and an endpoint that was not
    registered becomes the default rectangle labelled with its id. *)
Theorem plain_edge_line (from ws1 ws2 to trail : str) (label : option str)
    (nodes : JsMap.t GraphNode.t) (edges : list GraphEdge.t) :
  isId from -> isSpaces ws1 -> isSpaces ws2 -> isId to ->
  edgeTail label trail ->
  let after := processLine (nodes, edges)
                           (plainLine from ws1 ws2 to label trail) in
  snd after =
    edges ++ [GraphEdge.mk (edgeId from to) from to (option_map trim label)
                (Some arrow) None] /\
  (forall k n, JsMap.get k nodes = Some n ->
               JsMap.get k (fst after) = Some n) /\
  (JsMap.get from nodes = None ->
   JsMap.get from (fst after) =
   Some (GraphNode.mk from from rectangle None None None None)) /\
  (JsMap.get to nodes = None ->
   JsMap.get to (fst after) =
   Some (GraphNode.mk to to rectangle None None None None)).
Proof.
  intros Hfrom Hws1 Hws2 Hto Htail after. subst after.
  rewrite processLine_plainLine by assumption.
  split; [reflexivity|]. apply ensured_pair.
Qed.

Lemma plain_edge_line_witness :
  processLine ([], []) (js "A --> B|Yes|") =
  ([(js "A", defaultNode (js "A")); (js "B", defaultNode (js "B"))],
   [GraphEdge.mk (js "A-B") (js "A") (js "B") (Some (js "Yes"))
      (Some arrow) None]).
Proof.
  destruct (plain_edge_line (js "A") (js " ") (js " ") (js "B") []
              (Some (js "Yes")) [] []) as (Hedges & _ & _ & _).
  - split; [intros H; discriminate H|repeat constructor].
  - repeat constructor.
  - repeat constructor.
  - split; [intros H; discriminate H|repeat constructor].
  - split; [|reflexivity].
    split; [intros H; discriminate H|repeat constructor].
  - apply injective_projections; [reflexivity|exact Hedges].
Defined.

(** X8.  A line [<from> -.-> <to>], with an optional [|label|] after it,
    is consumed by the dashed-edge pattern: one edge of type dashed is
    appended, labelled with the label trimmed when there is one; nodes
    that were registered keep what they hold, and an endpoint that was not
    registered becomes the default rectangle labelled with its id. *)
Theorem dashed_edge_line (from ws1 ws2 to trail : str) (label : option str)
    (nodes : JsMap.t GraphNode.t) (edges : list GraphEdge.t) :
  isId from -> isSpaces ws1 -> isSpaces ws2 -> isId to ->
  edgeTail label trail ->
  let after := processLine (nodes, edges)
                           (dashedLine from ws1 ws2 to label trail) in
  snd after =
    edges ++ [GraphEdge.mk (edgeId from to) from to (option_map trim label)
                (Some dashed) None] /\
  (forall k n, JsMap.get k nodes = Some n ->
               JsMap.get k (fst after) = Some n) /\
  (JsMap.get from nodes = None ->
   JsMap.get from (fst after) =
   Some (GraphNode.mk from from rectangle None None None None)) /\
  (JsMap.get to nodes = None ->
   JsMap.get to (fst after) =
   Some (GraphNode.mk to to rectangle None None None None)).
Proof.
  intros Hfrom Hws1 Hws2 Hto Htail after. subst after.
  rewrite processLine_dashedLine by assumption.
  split; [reflexivity|]. apply ensured_pair.
Qed.

Lemma dashed_edge_line_witness :
  processLine ([], []) (js "A -.-> B") =
  ([(js "A", defaultNode (js "A")); (js "B", defaultNode (js "B"))],
   [GraphEdge.mk (js "A-B") (js "A") (js "B") None (Some dashed) None]).
Proof.
  destruct (dashed_edge_line (js "A") (js " ") (js " ") (js "B") []
              None [] []) as (Hedges & _ & _ & _).
  - split; [intros H; discriminate H|repeat constructor].
  - repeat constructor.
  - repeat constructor.
  - split; [intros H; discriminate H|repeat constructor].
  - split; reflexivity.
  - apply injective_projections; [reflexivity|exact Hedges].
Defined.

(** ** The diagram declaration *)

Lemma lit_i_app (p d r : str) :
  map upper d = map upper p -> lit_i p (d ++ r) = [(tt, r)].
Proof.
  intros H. unfold lit_i. rewrite map_app, H, startsWith_app.
  replace (length p) with (length d)
    by (rewrite <- (length_map upper d), H; apply length_map).
  rewrite skipn_app, skipn_all, Nat.sub_diag. reflexivity.
Qed.

Lemma lit_i_other (p d r : str) :
  (forall r', startsWith (map upper d ++ r') (map upper p) = false) ->
  lit_i p (d ++ r) = [].
Proof. intros H. unfold lit_i. rewrite map_app, H. reflexivity. Qed.

Lemma capture_head {A} (m : matcher A) (d r : str) (a : A) tl :
  m (d ++ r) = (a, r) :: tl ->
  exists tl', capture m (d ++ r) = (d, r) :: tl'.
Proof.
  intros H. unfold capture. rewrite H. simpl.
  rewrite length_app, Nat.add_sub, firstn_app, Nat.sub_diag, firstn_all.
  simpl. rewrite app_nil_r. eauto.
Qed.

Lemma space_upper (c : N) : is_space c = true -> upper c = c.
Proof.
  intros H. unfold upper. destruct (in_range 97 122 c) eqn:E; [|reflexivity].
  exfalso. revert H E. chars.
Qed.

Lemma direction_not_space (dir r : str) :
  isDirection dir -> startsIn is_space (dir ++ r) = false.
Proof.
  intros H. unfold isDirection in H. destruct dir as [|c dir].
  - exfalso. simpl in H. intuition discriminate.
  - simpl. destruct (is_space c) eqn:E; [|reflexivity]. exfalso.
    pose proof (space_upper c E) as Hu.
    assert (Hc : In (upper c) [84; 66; 82; 76]%N).
    { jslit. simpl in H.
      destruct H as [H|[H|[H|[H|[H|[]]]]]]; injection H as Hh _;
        rewrite <- Hh; simpl; auto. }
    rewrite Hu in Hc.
    destruct Hc as [<-|[<-|[<-|[<-|[]]]]]; vm_compute in E; discriminate E.
Qed.

Lemma keyword_head (kw r : str) :
  isKeyword kw ->
  exists tl,
    capture (alt (lit_i (js "graph")) (lit_i (js "flowchart"))) (kw ++ r) =
    (kw, r) :: tl.
Proof.
  intros [H|H].
  - eapply capture_head. unfold alt.
    rewrite (lit_i_app (js "graph") kw r) by (rewrite H; reflexivity).
    reflexivity.
  - eapply capture_head. unfold alt.
    rewrite (lit_i_other (js "graph") kw r)
      by (intros; rewrite H; reflexivity).
    rewrite (lit_i_app (js "flowchart") kw r) by (rewrite H; reflexivity).
    reflexivity.
Qed.

Lemma direction_head (dir r : str) :
  isDirection dir ->
  exists tl,
    capture (alt (lit_i (js "TB")) (alt (lit_i (js "TD"))
            (alt (lit_i (js "BT")) (alt (lit_i (js "RL"))
                                        (lit_i (js "LR"))))))
            (dir ++ r) = (dir, r) :: tl.
Proof.
  intros H. unfold isDirection in H.
  assert (E : exists tl,
             (alt (lit_i (js "TB")) (alt (lit_i (js "TD"))
                  (alt (lit_i (js "BT")) (alt (lit_i (js "RL"))
                                              (lit_i (js "LR"))))))
               (dir ++ r) = (tt, r) :: tl).
  { unfold alt.
    destruct H as [H|[H|[H|[H|[H|[]]]]]]; symmetry in H;
      repeat first
        [ rewrite (lit_i_app _ dir r) by (rewrite H; reflexivity)
        | rewrite (lit_i_other _ dir r)
            by (intros; rewrite H; reflexivity) ];
      simpl; eauto. }
  destruct E as (tl & E). eapply capture_head. exact E.
Qed.

Lemma trimStart_idempotent (s : str) : trimStart (trimStart s) = trimStart s.
Proof. apply trimStart_stop. apply trimStart_not_space. Qed.

(** X9.  A diagram declaration at the very start of the code (the keyword
    graph or flowchart and one of the five directions, in any letter case,
    separated by white space) is removed together with the white space
    after it: what is parsed is the rest of the code, trimmed. *)
Theorem declaration_removed (kw ws dir rest : str) :
  isKeyword kw -> ws <> [] -> isSpaces ws -> isDirection dir ->
  cleanMermaidCode (kw ++ ws ++ dir ++ rest) = trim rest.
Proof.
  intros Hkw Hne Hws Hdir. unfold cleanMermaidCode.
  enough (H : hd_error (declaration (kw ++ ws ++ dir ++ rest))
              = Some (tt, trimStart rest)).
  { rewrite exec_hd, H. unfold trim. rewrite trimStart_idempotent.
    reflexivity. }
  unfold declaration.
  destruct (keyword_head kw (ws ++ dir ++ rest) Hkw) as (tl & Hrun).
  eapply bind_hd; [exact Hrun|].
  destruct (plus_run is_space ws (dir ++ rest) Hne Hws
              (direction_not_space dir rest Hdir)) as (tl1 & Hrun1 & _).
  eapply bind_hd; [exact Hrun1|].
  destruct (direction_head dir rest Hdir) as (tl2 & Hrun2).
  eapply bind_hd; [exact Hrun2|].
  destruct (trimStart_split rest) as (w & Hw & Hsp).
  destruct (star_run is_space w (trimStart rest) Hsp
              (trimStart_not_space rest)) as (tl3 & Hrun3 & _).
  rewrite <- Hw in Hrun3.
  eapply bind_hd; [exact Hrun3|].
  eapply bind_hd; [|reflexivity].
  unfold opt. rewrite lit_mismatch; [reflexivity|].
  pose proof (trimStart_not_space rest) as Hns.
  destruct (trimStart rest) as [|c r]; [reflexivity|]. cbn [startsIn] in *.
  destruct (N.eqb_spec LF c) as [<-|]; [vm_compute in Hns; discriminate Hns
                                        |reflexivity].
Qed.

Lemma declaration_removed_witness :
  cleanMermaidCode (js "Flowchart  lr" ++ [LF] ++ js "  A-->B  ") =
  js "A-->B".
Proof.
  apply (declaration_removed (js "Flowchart") (js "  ") (js "lr")
           ([LF] ++ js "  A-->B  ")).
  - right. reflexivity.
  - intros H. discriminate H.
  - repeat constructor.
  - do 4 right. left. reflexivity.
Defined.

(** ** What accumulates along the lines *)

Lemma applyOp_keys (nodes : JsMap.t GraphNode.t) (op : RegistryOp) :
  exists more, JsMap.keys (applyOp nodes op) = JsMap.keys nodes ++ more.
Proof.
  destruct op as [id nodeDef|id]; simpl.
  - rewrite keys_set. destruct (JsMap.has id nodes); [exists []|eauto].
    symmetry; apply app_nil_r.
  - unfold ensureNode. destruct (JsMap.has id nodes) eqn:E.
    + exists []. symmetry; apply app_nil_r.
    + rewrite keys_set, E. eauto.
Qed.

Lemma fold_applyOp_keys (ops : list RegistryOp) : forall nodes,
  exists more,
    JsMap.keys (fold_left applyOp ops nodes) = JsMap.keys nodes ++ more.
Proof.
  induction ops as [|op ops IH]; simpl; intros nodes.
  - exists []. symmetry; apply app_nil_r.
  - destruct (IH (applyOp nodes op)) as (m1 & ->).
    destruct (applyOp_keys nodes op) as (m2 & ->).
    exists (m2 ++ m1). symmetry; apply app_assoc.
Qed.

Lemma fold_processLine_extends (lines : list str) : forall st,
  (exists more,
      JsMap.keys (fst (fold_left processLine lines st)) =
      JsMap.keys (fst st) ++ more) /\
  (exists more, snd (fold_left processLine lines st) = snd st ++ more).
Proof.
  induction lines as [|line lines IH]; intros st.
  - split; exists []; symmetry; apply app_nil_r.
  - change (fold_left processLine (line :: lines) st)
      with (fold_left processLine lines (processLine st line)).
    destruct (IH (processLine st line)) as [(mk & ->) (me & ->)].
    destruct st as [nodes edges]. split.
    + rewrite processLine_nodes.
      destruct (fold_applyOp_keys (lineOps line) nodes) as (m & ->).
      exists (m ++ mk). symmetry; apply app_assoc.
    + destruct (processLine_edges nodes edges line) as [->|(e & -> & _)].
      * eauto.
      * exists ([e] ++ me). symmetry; apply app_assoc.
Qed.

Lemma values_ids (st : ParseState) :
  wellFormed st ->
  map GraphNode.id (JsMap.values (fst st)) = JsMap.keys (fst st).
Proof.
  intros [Hid _]. unfold JsMap.values, JsMap.keys. rewrite map_map.
  apply map_ext_in. intros [k v] Hin. apply (Hid k v Hin).
Qed.

Lemma parseFlowchartContent_runLines (code : str) :
  parseFlowchartContent code =
  (JsMap.values (fst (runLines (contentLines code))),
   snd (runLines (contentLines code))).
Proof.
  unfold parseFlowchartContent. destruct (runLines _). reflexivity.
Qed.

(** X10.  Lines added after a text never disturb what the text produced:
    the nodes of the longer content start with the ids of the shorter
    content's nodes, in the same order, and its edges start with the
    shorter content's edges. *)
Theorem appended_lines_extend (a b : str) :
  (exists more,
      map GraphNode.id (fst (parseFlowchartContent (a ++ LF :: b))) =
      map GraphNode.id (fst (parseFlowchartContent a)) ++ more) /\
  (exists more,
      snd (parseFlowchartContent (a ++ LF :: b)) =
      snd (parseFlowchartContent a) ++ more).
Proof.
  rewrite !parseFlowchartContent_runLines. cbn [fst snd].
  rewrite !values_ids by apply runLines_wellFormed.
  unfold runLines at 1 3. rewrite contentLines_app, fold_left_app.
  apply fold_processLine_extends.
Qed.

(** ** What the parser builds *)

Lemma parseNodeDefinition_unplaced (id nodeDef : str) :
  unplaced (parseNodeDefinition id nodeDef).
Proof.
  unfold parseNodeDefinition, unplaced.
  repeat match goal with
         | |- context [if ?b then _ else _] => destruct b
         end; simpl; auto.
Qed.

Lemma applyOp_unplaced (op : RegistryOp) (nodes : JsMap.t GraphNode.t) :
  (forall k v, In (k, v) nodes -> unplaced v) ->
  forall k v, In (k, v) (applyOp nodes op) -> unplaced v.
Proof.
  intros Hinv k v Hin. destruct op as [id nodeDef|id]; simpl in Hin.
  - apply In_set in Hin. destruct Hin as [[_ ->]|Hin]; eauto.
    apply parseNodeDefinition_unplaced.
  - unfold ensureNode in Hin. destruct (JsMap.has id nodes); eauto.
    apply In_set in Hin. destruct Hin as [[_ ->]|Hin]; eauto.
    repeat split.
Qed.

Lemma fold_applyOp_unplaced (ops : list RegistryOp) : forall nodes,
  (forall k v, In (k, v) nodes -> unplaced v) ->
  forall k v, In (k, v) (fold_left applyOp ops nodes) -> unplaced v.
Proof.
  induction ops as [|op ops IH]; simpl; intros nodes Hinv; auto.
  apply IH. apply applyOp_unplaced. exact Hinv.
Qed.

Lemma processLine_new_edge (nodes : JsMap.t GraphNode.t) edges (line : str) :
  snd (processLine (nodes, edges) line) = edges \/
  exists e, snd (processLine (nodes, edges) line) = edges ++ [e] /\
            parsedEdge e.
Proof.
  unfold processLine, parsedEdge.
  destruct (groups nodeMatch line) as [[id nodeDef]|]; [left; reflexivity|].
  destruct (groups edgeWithNodesMatch line)
    as [[[[[fromId fromNodeDef] toId] toNodeDef] label]|];
    [right; eexists; split; [reflexivity|simpl; auto]|].
  destruct (groups edgeWithLabelAndNodeMatch line)
    as [[[[from label] toId] toNodeDef]|];
    [right; eexists; split; [reflexivity|simpl; auto]|].
  destruct (groups edgeWithLabelMatch line) as [[[from to] label]|];
    [right; eexists; split; [reflexivity|simpl; auto]|].
  destruct (groups dashedEdgeMatch line) as [[[from to] label]|];
    [right; eexists; split; [reflexivity|simpl; auto]|left; reflexivity].
Qed.

Lemma fold_processLine_built (lines : list str) : forall st,
  (forall k v, In (k, v) (fst st) -> unplaced v) ->
  Forall parsedEdge (snd st) ->
  (forall k v, In (k, v) (fst (fold_left processLine lines st)) ->
               unplaced v) /\
  Forall parsedEdge (snd (fold_left processLine lines st)).
Proof.
  induction lines as [|line lines IH]; intros st Hn He; [split; assumption|].
  change (fold_left processLine (line :: lines) st)
    with (fold_left processLine lines (processLine st line)).
  destruct st as [nodes edges]. apply IH.
  - rewrite processLine_nodes. apply fold_applyOp_unplaced. exact Hn.
  - destruct (processLine_new_edge nodes edges line) as [E|(e & E & Hpe)].
    + match goal with
      | |- Forall _ ?x => replace x with edges by (symmetry; exact E)
      end.
      exact He.
    + match goal with
      | |- Forall _ ?x => replace x with (edges ++ [e]) by (symmetry; exact E)
      end.
      apply Forall_app. split; [exact He|].
      constructor; [exact Hpe|constructor].
Qed.

(** X11.  Whenever [parse] returns a graph, its nodes have no position,
    size, style or pin, and each of its edges is named from-to after its
    endpoints, has type arrow or dashed, and carries no routing points. *)
Theorem parsed_graph_is_bare (mermaidCode : str) (g : Graph.t) :
  ParseResult.graph (parse mermaidCode) = Some g ->
  Forall unplaced (Graph.nodes g) /\ Forall parsedEdge (Graph.edges g).
Proof.
  intros H. apply parse_graph in H. subst g. simpl.
  destruct (fold_processLine_built
              (contentLines (cleanMermaidCode mermaidCode)) ([], []))
    as [Hn He].
  - intros k v [].
  - constructor.
  - split; [|exact He]. apply Forall_forall. intros n Hin.
    unfold JsMap.values in Hin. apply in_map_iff in Hin.
    destruct Hin as ([k v] & <- & Hin). apply (Hn k v Hin).
Qed.

Lemma parsed_graph_is_bare_witness :
  exists g,
    ParseResult.graph (parse sampleCode) = Some g /\
    Forall unplaced (Graph.nodes g) /\ Forall parsedEdge (Graph.edges g).
Proof.
  eexists. split.
  - vm_compute. reflexivity.
  - apply (parsed_graph_is_bare sampleCode). vm_compute. reflexivity.
Defined.

(* ================================================================== *)
(** * Further properties of the layout adapter *)

(** ** What the engine is handed *)

Lemma toELKNode_of_unplaced (node : GraphNode.t) :
  unplaced node ->
  toELKNode node =
  ElkNode.mk (GraphNode.id node) (GraphNode.label node)
    (width (getDefaultNodeSize (GraphNode.shape node)))
    (height (getDefaultNodeSize (GraphNode.shape node)))
    None None None (GraphNode.shape node).
Proof.
  intros (Hp & Hs & _ & Hd). unfold toELKNode. rewrite Hp, Hs, Hd.
  reflexivity.
Qed.

(** X12.  For a graph that [parse] returned, the engine is handed one
    child per node, in order and under the node's id, free to be placed (no
    coordinates, no fixing directive) and with the default size of its
    shape; and every edge it is handed has exactly one source and one
    target, each the id of one of these children. *)
Theorem engine_input_of_parsed_graph (mermaidCode : str) (g : Graph.t) :
  ParseResult.graph (parse mermaidCode) = Some g ->
  let elkGraph := convertToELKGraph g in
  map ElkNode.id (ElkGraph.children elkGraph) =
    map GraphNode.id (Graph.nodes g) /\
  Forall (fun child =>
            ElkNode.x child = None /\ ElkNode.y child = None /\
            ElkNode.layoutOptions child = None /\
            mkSize (ElkNode.width child) (ElkNode.height child) =
              getDefaultNodeSize (ElkNode.shape child))
         (ElkGraph.children elkGraph) /\
  Forall (fun edge =>
            exists source target,
              ElkEdge.sources edge = [source] /\
              ElkEdge.targets edge = [target] /\
              In source (map ElkNode.id (ElkGraph.children elkGraph)) /\
              In target (map ElkNode.id (ElkGraph.children elkGraph)))
         (ElkGraph.edges elkGraph).
Proof.
  intros Hparse elkGraph.
  assert (Hids : map ElkNode.id (ElkGraph.children elkGraph) =
                 map GraphNode.id (Graph.nodes g)).
  { subst elkGraph. simpl. rewrite map_map. reflexivity. }
  split; [exact Hids|]. split.
  - pose proof (parse_graph _ _ Hparse) as Hg.
    assert (Hbare : Forall unplaced (Graph.nodes g)).
    { subst g. simpl.
      destruct (fold_processLine_built
                  (contentLines (cleanMermaidCode mermaidCode)) ([], []))
        as [Hn _]; [intros k v []|constructor|].
      apply Forall_forall. intros n Hin. unfold JsMap.values in Hin.
      apply in_map_iff in Hin. destruct Hin as ([k v] & <- & Hin).
      apply (Hn k v Hin). }
    subst elkGraph. simpl. rewrite Forall_map.
    eapply Forall_impl; [|exact Hbare]. intros n Hn.
    rewrite (toELKNode_of_unplaced n Hn). simpl.
    destruct (getDefaultNodeSize (GraphNode.shape n)). auto.
  - rewrite Hids. subst elkGraph. simpl. rewrite Forall_map.
    apply parse_graph in Hparse. subst g. simpl.
    destruct (runLines_wellFormed
                (contentLines (cleanMermaidCode mermaidCode)))
      as [Hid Hedges].
    apply Forall_forall. intros e He. destruct (Hedges e He) as [Hf Ht].
    exists (GraphEdge.from e), (GraphEdge.to e).
    split; [reflexivity|]. split; [reflexivity|].
    split.
    + destruct (registered_node _ _ Hid Hf) as (n & Hn & <-).
      apply in_map. exact Hn.
    + destruct (registered_node _ _ Hid Ht) as (n & Hn & <-).
      apply in_map. exact Hn.
Qed.

Lemma engine_input_of_parsed_graph_witness :
  exists g,
    ParseResult.graph (parse sampleCode) = Some g /\
    map ElkNode.id (ElkGraph.children (convertToELKGraph g)) =
      map GraphNode.id (Graph.nodes g).
Proof.
  eexists. split.
  - vm_compute. reflexivity.
  - apply (engine_input_of_parsed_graph sampleCode). vm_compute. reflexivity.
Defined.

Lemma numOr_nonzero (v : option Z) (d : Z) : d <> 0%Z -> numOr v d <> 0%Z.
Proof.
  intros Hd. unfold numOr. destruct v as [z|]; [|exact Hd].
  destruct (Z.eqb z 0) eqn:E; [exact Hd|]. apply Z.eqb_neq. exact E.
Qed.

Lemma defaultSize_nonzero (shape : Shape) :
  width (getDefaultNodeSize shape) <> 0%Z /\
  height (getDefaultNodeSize shape) <> 0%Z.
Proof. destruct shape; simpl; split; discriminate. Qed.

(** X13.  Whatever the graph, no child is handed to the engine with a zero
    width or height (a recorded size of 0 gives way to the default of the
    shape), and the children and edges are those of the graph, in order. *)
Theorem engine_input_well_sized (graph : Graph.t) :
  Forall (fun child => ElkNode.width child <> 0%Z /\
                       ElkNode.height child <> 0%Z)
         (ElkGraph.children (convertToELKGraph graph)) /\
  map ElkNode.id (ElkGraph.children (convertToELKGraph graph)) =
    map GraphNode.id (Graph.nodes graph) /\
  map ElkEdge.id (ElkGraph.edges (convertToELKGraph graph)) =
    map GraphEdge.id (Graph.edges graph).
Proof.
  simpl. split; [|split; rewrite map_map; reflexivity].
  rewrite Forall_map. apply Forall_forall. intros n _. simpl.
  destruct (defaultSize_nonzero (GraphNode.shape n)).
  split; apply numOr_nonzero; assumption.
Qed.

(** ** What [layout] resolves to *)

(** X14.  The engine is invoked at most once: never for a graph without
    nodes, and otherwise exactly once, on the converted graph, whatever it
    answers. *)
Theorem engine_invoked_once (engine : Engine) (graph : Graph.t) :
  engineCalls engine (layout graph) =
  match Graph.nodes graph with
  | [] => []
  | _ :: _ => [convertToELKGraph graph]
  end.
Proof.
  unfold layout. destruct (Graph.nodes graph); simpl; [reflexivity|].
  destruct (tryBlock _ _); reflexivity.
Qed.

Lemma fromELKNode_placed originalNodes (child : ElkOutNode.t) :
  exists p s,
    GraphNode.position (fromELKNode originalNodes child) = Some p /\
    GraphNode.size (fromELKNode originalNodes child) = Some s /\
    width s <> 0%Z /\ height s <> 0%Z.
Proof.
  unfold fromELKNode. simpl. do 2 eexists. split; [reflexivity|].
  split; [reflexivity|]. simpl.
  split; apply numOr_nonzero; discriminate.
Qed.

Lemma mapIndexed_Forall {A B} (P : B -> Prop) (f : A -> nat -> B) l :
  (forall a i, P (f a i)) -> forall start, Forall P (mapIndexed f start l).
Proof.
  intros H. induction l as [|a l IH]; simpl; intros start; constructor; auto.
Qed.

Lemma ceilDiv_nonneg (n : Z) : (0 <= n -> 0 <= ceilDiv n 4)%Z.
Proof. intros H. pose proof (ceilDiv_rows n). lia. Qed.

(** X15.  Whatever [layout] resolves to, on the short cut, on the success
    path and on the fallback path alike, every node of the result has a
    position and a size of non-zero width and height, and the bounds have
    a non-zero width and height. *)
Theorem layout_result_renderable (engine : Engine) (graph : Graph.t)
    (result : LayoutResult.t) :
  settle engine (layout graph) = inr result ->
  Forall (fun n =>
            exists p s,
              GraphNode.position n = Some p /\ GraphNode.size n = Some s /\
              width s <> 0%Z /\ height s <> 0%Z)
         (Graph.nodes (LayoutResult.graph result)) /\
  width (LayoutResult.bounds result) <> 0%Z /\
  height (LayoutResult.bounds result) <> 0%Z.
Proof.
  unfold layout. destruct (Nat.eqb _ 0); simpl.
  - intros H; injection H as <-. simpl.
    split; [constructor|split; discriminate].
  - destruct (tryBlock _ _) as [thrown|converted] eqn:E; simpl;
      intros H; injection H as <-.
    + simpl. split.
      * apply mapIndexed_Forall. intros a i. simpl.
        do 2 eexists. repeat split; discriminate.
      * split; [discriminate|].
        pose proof (ceilDiv_nonneg (Z.of_nat (length (Graph.nodes graph)))
                      ltac:(lia)). lia.
    + unfold tryBlock in E.
      destruct (engine _) as [thrown|out]; [discriminate|].
      destruct (convertFromELKGraph out _) as [thrown|g] eqn:C;
        [discriminate|].
      injection E as <-. simpl.
      split; [|split; apply numOr_nonzero; discriminate].
      unfold convertFromELKGraph in C.
      destruct (match ElkOutGraph.edges out with
                | Some edges => mapExc fromELKEdge edges
                | None => inr []
                end); [discriminate|].
      injection C as <-. simpl.
      destruct (ElkOutGraph.children out); [|constructor].
      rewrite Forall_map. apply Forall_forall. intros c _.
      apply fromELKNode_placed.
Qed.

Lemma layout_result_renderable_witness :
  Forall (fun n =>
            exists p s,
              GraphNode.position n = Some p /\ GraphNode.size n = Some s /\
              width s <> 0%Z /\ height s <> 0%Z)
         (Graph.nodes (LayoutResult.graph (fallbackLayout pinnedGraph))) /\
  width (LayoutResult.bounds (fallbackLayout pinnedGraph)) <> 0%Z /\
  height (LayoutResult.bounds (fallbackLayout pinnedGraph)) <> 0%Z.
Proof.
  apply (layout_result_renderable failingEngine pinnedGraph). reflexivity.
Defined.

(** ** The grid of the fallback *)

Lemma fallback_nth (graph : Graph.t) (i : nat) (node : GraphNode.t) :
  nth_error (Graph.nodes (LayoutResult.graph (fallbackLayout graph))) i
    = Some node ->
  (i < length (Graph.nodes graph))%nat /\
  GraphNode.position node =
    Some (mkPoint ((Z.of_nat i mod 4) * 150 + 50)
                  ((Z.of_nat i / 4) * 100 + 50)) /\
  GraphNode.size node = Some (mkSize 120 60).
Proof.
  intros H. unfold fallbackLayout in H. simpl in H.
  assert (Hlt : (i < length (Graph.nodes graph))%nat).
  { rewrite <- (mapIndexed_length
                  (fun node index =>
                     GraphNode.mk (GraphNode.id node) (GraphNode.label node)
                       (GraphNode.shape node)
                       (Some (mkPoint ((Z.of_nat index mod 4) * 150 + 50)
                                      ((Z.of_nat index / 4) * 100 + 50)))
                       (Some (mkSize 120 60))
                       (GraphNode.style node) (GraphNode.isDragged node))
                  (Graph.nodes graph) 0).
    apply nth_error_Some. congruence. }
  split; [exact Hlt|].
  destruct (nth_error (Graph.nodes graph) i) as [orig|] eqn:E.
  - erewrite mapIndexed_nth_error in H by exact E.
    injection H as <-. simpl. auto.
  - apply nth_error_None in E. lia.
Qed.



(** ** The success path *)

Lemma honoursPins_node (graph : Graph.t) (node : GraphNode.t)
    (out : ElkOutNode.t) :
  NoDup (map GraphNode.id (Graph.nodes graph)) ->
  In node (Graph.nodes graph) ->
  honoursPins (toELKNode node) out ->
  let node' := fromELKNode (originalNodesOf graph) out in
  GraphNode.id node' = GraphNode.id node /\
  GraphNode.isDragged node' = Some (truthy (GraphNode.isDragged node)) /\
  (forall p, GraphNode.isDragged node = Some true ->
             GraphNode.position node = Some p ->
             GraphNode.position node' = Some p).
Proof.
  intros Hnd Hin (Hid & Hx & Hy) node'. subst node'.
  change (ElkNode.id (toELKNode node)) with (GraphNode.id node) in Hid.
  split; [exact Hid|]. split.
  - unfold fromELKNode. simpl. rewrite Hid.
    rewrite originalNodesOf_get by assumption. reflexivity.
  - intros p Hd Hp.
    destruct (toELKNode_pinned node p Hd Hp) as (Hcx & Hcy & _).
    rewrite (fromELKNode_position _ out (x p) (y p));
      [destruct p; reflexivity|auto|auto].
Qed.

Lemma honoursPins_nodes (graph : Graph.t) :
  NoDup (map GraphNode.id (Graph.nodes graph)) ->
  forall nodes returned,
    incl nodes (Graph.nodes graph) ->
    Forall2 honoursPins (map toELKNode nodes) returned ->
    Forall2 (fun node node' =>
               GraphNode.id node' = GraphNode.id node /\
               GraphNode.isDragged node' =
                 Some (truthy (GraphNode.isDragged node)) /\
               (forall p, GraphNode.isDragged node = Some true ->
                          GraphNode.position node = Some p ->
                          GraphNode.position node' = Some p))
            nodes (map (fromELKNode (originalNodesOf graph)) returned).
Proof.
  intros Hnd.
  induction nodes as [|node nodes IH]; intros returned Hincl Hpins;
    inversion Hpins as [|? out ? returned' Hp Hrest]; subst; simpl;
    constructor.
  - apply (honoursPins_node graph node out Hnd); auto.
    apply Hincl. left. reflexivity.
  - apply IH; auto. intros n Hn. apply Hincl. right. exact Hn.
Qed.

(** X17.  On the success path a pin is as good as the engine: for a graph
    with distinct ids, if the engine fulfils with the children it was given
    (each under its id) and leaves fixed coordinates as they were, then
    [layout] resolves to the converted graph, in which every node keeps its
    id and its pin flag, and every pinned node with a position is at that
    very position. *)
Theorem pinned_kept_on_success (engine : Engine) (graph : Graph.t)
    (elkGraph : ElkOutGraph.t) (returned : list ElkOutNode.t)
    (converted : Graph.t) :
  NoDup (map GraphNode.id (Graph.nodes graph)) ->
  Graph.nodes graph <> [] ->
  engine (convertToELKGraph graph) = inr elkGraph ->
  ElkOutGraph.children elkGraph = Some returned ->
  Forall2 honoursPins (ElkGraph.children (convertToELKGraph graph)) returned ->
  convertFromELKGraph elkGraph (originalNodesOf graph) = inr converted ->
  settle engine (layout graph) =
    inr (LayoutResult.mk converted
           (mkSize (numOr (ElkOutGraph.width elkGraph) 800)
                   (numOr (ElkOutGraph.height elkGraph) 600))) /\
  Forall2 (fun node node' =>
             GraphNode.id node' = GraphNode.id node /\
             GraphNode.isDragged node' =
               Some (truthy (GraphNode.isDragged node)) /\
             (forall p, GraphNode.isDragged node = Some true ->
                        GraphNode.position node = Some p ->
                        GraphNode.position node' = Some p))
          (Graph.nodes graph) (Graph.nodes converted).
Proof.
  intros Hnd Hne Heng Hch Hpins Hconv. split.
  - rewrite layout_nonempty by assumption. simpl.
    unfold tryBlock. rewrite Heng, Hconv. reflexivity.
  - unfold convertFromELKGraph in Hconv. rewrite Hch in Hconv.
    destruct (match ElkOutGraph.edges elkGraph with
              | Some edges => mapExc fromELKEdge edges
              | None => inr []
              end) as [thrown|edges]; [discriminate|].
    injection Hconv as <-. simpl in *.
    apply honoursPins_nodes; auto. apply incl_refl.
Qed.

Lemma pinned_kept_on_success_witness :
  exists result,
    settle echoEngine (layout pinnedGraph) = inr result /\
    map GraphNode.position (Graph.nodes (LayoutResult.graph result)) =
      [Some (mkPoint 500 500)].
Proof.
  edestruct (pinned_kept_on_success echoEngine pinnedGraph) as [Hs _].
  - simpl. apply NoDup_cons; [intros []|apply NoDup_nil].
  - intros H; discriminate H.
  - reflexivity.
  - reflexivity.
  - simpl. apply Forall2_cons; [|apply Forall2_nil].
    split; [reflexivity|]. split; intros v H; exact H.
  - reflexivity.
  - eexists. split; [exact Hs|]. reflexivity.
Defined.

Lemma fromELKEdge_echo (edge : GraphEdge.t) (out : ElkOutEdge.t) :
  echoesEdge (toELKEdge edge) out ->
  exists e, fromELKEdge out = inr e /\ edgeEnds e = edgeEnds edge /\
            GraphEdge.type e = None.
Proof.
  intros (Hid & Hs & Ht). unfold fromELKEdge. simpl in Hs, Ht.
  destruct (ElkOutEdge.sources out) as [[s ls]|]; [|discriminate].
  destruct (ElkOutEdge.targets out) as [[t lt]|]; [|discriminate].
  simpl in Hs, Ht. injection Hs as ->. injection Ht as ->.
  eexists. split; [reflexivity|]. unfold edgeEnds. simpl.
  rewrite Hid. auto.
Qed.

Lemma mapExc_echo (edges : list GraphEdge.t) : forall returned,
  Forall2 echoesEdge (map toELKEdge edges) returned ->
  exists es, mapExc fromELKEdge returned = inr es /\
             map edgeEnds es = map edgeEnds edges /\
             Forall (fun e => GraphEdge.type e = None) es.
Proof.
  induction edges as [|edge edges IH]; intros returned H;
    inversion H as [|? out ? returned' Hecho Hrest]; subst; simpl.
  - exists []. repeat split. constructor.
  - destruct (fromELKEdge_echo edge out Hecho) as (e & -> & Hends & Hty).
    destruct (IH returned' Hrest) as (es & -> & Hmap & Hall).
    exists (e :: es). split; [reflexivity|]. split.
    + simpl. rewrite Hends, Hmap. reflexivity.
    + constructor; assumption.
Qed.

(** X18.  On the success path the edges come back under their ids between
    the same endpoints when the engine returns the edges it was given, but
    without their type: what the conversion builds never carries a type, so
    a dashed edge is no longer dashed after a successful layout. *)
Theorem edges_back_without_type (graph : Graph.t) (elkGraph : ElkOutGraph.t)
    (returned : list ElkOutEdge.t) :
  ElkOutGraph.edges elkGraph = Some returned ->
  Forall2 echoesEdge (ElkGraph.edges (convertToELKGraph graph)) returned ->
  exists converted,
    convertFromELKGraph elkGraph (originalNodesOf graph) = inr converted /\
    map edgeEnds (Graph.edges converted) = map edgeEnds (Graph.edges graph) /\
    Forall (fun e => GraphEdge.type e = None) (Graph.edges converted).
Proof.
  intros Hedges Hecho. unfold convertFromELKGraph. rewrite Hedges.
  destruct (mapExc_echo (Graph.edges graph) returned Hecho)
    as (es & -> & Hmap & Hall).
  eexists. split; [reflexivity|]. simpl. auto.
Qed.

Lemma edges_back_without_type_witness :
  exists result,
    settle echoEngine (layout dashedGraph) = inr result /\
    map GraphEdge.type (Graph.edges dashedGraph) = [Some dashed] /\
    map GraphEdge.type (Graph.edges (LayoutResult.graph result)) = [None].
Proof.
  edestruct (edges_back_without_type dashedGraph
               (echoResult (convertToELKGraph dashedGraph)))
    as (converted & Hc & _ & _).
  - reflexivity.
  - simpl. apply Forall2_cons; [|apply Forall2_nil].
    split; [reflexivity|]. split; reflexivity.
  - eexists. split; [|split]; reflexivity.
Defined.

Lemma mapExc_unreadable (es : list ElkOutEdge.t) :
  Exists unreadable es -> mapExc fromELKEdge es = inl typeError.
Proof.
  induction es as [|e es IH]; intros H; [inversion H|]. simpl.
  destruct (fromELKEdge e) as [thrown|edge] eqn:E.
  - unfold fromELKEdge in E.
    destruct (ElkOutEdge.sources e) as [[? ?]|];
      destruct (ElkOutEdge.targets e) as [[? ?]|];
      congruence.
  - inversion H as [? ? Hbad|? ? Hrest]; subst.
    + exfalso. unfold fromELKEdge in E.
      destruct Hbad as [Hb|Hb]; rewrite Hb in E;
        destruct (ElkOutEdge.sources e) as [[? ?]|]; discriminate.
    + rewrite (IH Hrest). reflexivity.
Qed.

(** X19.  A result that cannot be converted is treated like a failure of
    the engine: if the engine fulfils with an edge whose sources or
    targets are missing, the conversion throws inside the try block, one
    warning is logged and [layout] resolves to the fallback layout. *)
Theorem unreadable_result_falls_back (engine : Engine) (graph : Graph.t)
    (elkGraph : ElkOutGraph.t) (returned : list ElkOutEdge.t) :
  Graph.nodes graph <> [] ->
  engine (convertToELKGraph graph) = inr elkGraph ->
  ElkOutGraph.edges elkGraph = Some returned ->
  Exists unreadable returned ->
  settle engine (layout graph) = inr (fallbackLayout graph) /\
  warnings engine (layout graph) = [typeError].
Proof.
  intros Hne Heng Hedges Hbad. rewrite layout_nonempty by assumption.
  simpl. unfold tryBlock, convertFromELKGraph.
  rewrite Heng, Hedges, (mapExc_unreadable returned Hbad). simpl. auto.
Qed.

Lemma unreadable_result_falls_back_witness :
  let engine : Engine := fun _ =>
    inr (ElkOutGraph.mk (Some [])
           (Some [ElkOutEdge.mk (js "A-B") None (Some (js "B", [])) [] []])
           None None) in
  settle engine (layout dashedGraph) = inr (fallbackLayout dashedGraph) /\
  warnings engine (layout dashedGraph) = [typeError].
Proof.
  intros engine.
  apply (unreadable_result_falls_back engine dashedGraph
           (ElkOutGraph.mk (Some [])
              (Some [ElkOutEdge.mk (js "A-B") None (Some (js "B", [])) [] []])
              None None)
           [ElkOutEdge.mk (js "A-B") None (Some (js "B", [])) [] []]).
  - intros H; discriminate H.
  - reflexivity.
  - reflexivity.
  - apply Exists_cons_hd. left. reflexivity.
Defined.

(* ================================================================== *)
(** * Properties of the drag handler *)

Import App.

(** X20.  Dragging a node changes that node only: the graph keeps its
    edges and its nodes' ids in order; every node with the dragged id gets
    the new position and the pin, keeping its label, shape, size and
    style; every other node is left as it was. *)
Theorem drag_changes_only_the_node (nodeId : str) (position : Point)
    (prev : Graph.t) :
  let next := handleNodeDrag nodeId position prev in
  Graph.edges next = Graph.edges prev /\
  map GraphNode.id (Graph.nodes next) = map GraphNode.id (Graph.nodes prev) /\
  Forall2 (fun before after =>
             (GraphNode.id before = nodeId ->
              after = GraphNode.mk (GraphNode.id before)
                        (GraphNode.label before) (GraphNode.shape before)
                        (Some position) (GraphNode.size before)
                        (GraphNode.style before) (Some true)) /\
             (GraphNode.id before <> nodeId -> after = before))
          (Graph.nodes prev) (Graph.nodes next).
Proof.
  simpl. split; [reflexivity|]. split.
  - rewrite map_map. apply map_ext. intros n.
    destruct (JsString.eqb (GraphNode.id n) nodeId); reflexivity.
  - induction (Graph.nodes prev) as [|n nodes IH]; simpl; constructor; auto.
    destruct (JsString.eqb (GraphNode.id n) nodeId) eqn:E.
    + apply eqb_eq in E. split; [reflexivity|congruence].
    + apply eqb_neq in E. split; [congruence|reflexivity].
Qed.

(** X21.  Of two drags of the same node the last one decides, and drags of
    different nodes can be applied in either order. *)
Theorem drags_compose (id1 id2 : str) (p1 p2 : Point) (g : Graph.t) :
  handleNodeDrag id1 p2 (handleNodeDrag id1 p1 g) = handleNodeDrag id1 p2 g /\
  (id1 <> id2 ->
   handleNodeDrag id1 p1 (handleNodeDrag id2 p2 g) =
   handleNodeDrag id2 p2 (handleNodeDrag id1 p1 g)).
Proof.
  unfold handleNodeDrag. simpl. split.
  - f_equal. rewrite map_map. apply map_ext. intros n.
    destruct (JsString.eqb (GraphNode.id n) id1) eqn:E; simpl; rewrite E;
      reflexivity.
  - intros Hne. f_equal. rewrite !map_map. apply map_ext. intros n.
    destruct (JsString.eqb (GraphNode.id n) id1) eqn:E1;
      destruct (JsString.eqb (GraphNode.id n) id2) eqn:E2; simpl;
      rewrite ?E1, ?E2; try reflexivity.
    apply eqb_eq in E1. apply eqb_eq in E2. congruence.
Qed.

Lemma drags_compose_witness :
  handleNodeDrag (js "A") (mkPoint 1 2)
    (handleNodeDrag (js "B") (mkPoint 3 4) roundTripGraph) =
  handleNodeDrag (js "B") (mkPoint 3 4)
    (handleNodeDrag (js "A") (mkPoint 1 2) roundTripGraph).
Proof.
  apply (proj2 (drags_compose (js "A") (js "B") (mkPoint 1 2) (mkPoint 3 4)
                  roundTripGraph)).
  intros H. discriminate H.
Defined.

(** X22.  After a drag, the engine is handed the dragged node fixed at the
    position it was dragged to, and every other node as before the drag. *)
Theorem dragged_node_handed_fixed (nodeId : str) (position : Point)
    (g : Graph.t) :
  Forall2 (fun before after =>
             (ElkNode.id before = nodeId ->
              ElkNode.x after = Some (x position) /\
              ElkNode.y after = Some (y position) /\
              ElkNode.layoutOptions after =
                Some [("elk.position", "fixed")%string] /\
              ElkNode.id after = nodeId) /\
             (ElkNode.id before <> nodeId -> after = before))
          (ElkGraph.children (convertToELKGraph g))
          (ElkGraph.children
             (convertToELKGraph (handleNodeDrag nodeId position g))).
Proof.
  simpl. induction (Graph.nodes g) as [|n nodes IH]; simpl;
    constructor; auto.
  destruct (JsString.eqb (GraphNode.id n) nodeId) eqn:E.
  - apply eqb_eq in E. split; [|intros H; simpl in H; congruence].
    intros _. simpl. auto.
  - apply eqb_neq in E. split; [intros H; simpl in H; congruence|].
    reflexivity.
Qed.

(* ================================================================== *)
(** * Across the pipeline *)

Lemma split_single (sep : N) (s : str) :
  ~ In sep s -> split sep s = [s].
Proof.
  induction s as [|c s IH]; simpl; intros H; [reflexivity|].
  destruct (N.eqb_spec c sep) as [->|Hne]; [tauto|].
  rewrite IH by tauto. reflexivity.
Qed.

(** X23.  Blank lines and comment lines do not matter: a line without
    content (white space only, or a [%%] comment once trimmed) between two
    texts leaves the nodes and edges of the content as if it were not
    there. *)
Theorem blank_and_comment_lines_skipped (a c b : str) :
  ~ In LF c ->
  isSpaces c \/ startsWith (trim c) (js "%%") = true ->
  parseFlowchartContent (a ++ LF :: c ++ LF :: b) =
  parseFlowchartContent (a ++ LF :: b).
Proof.
  intros Hline Hskip. unfold parseFlowchartContent.
  rewrite !contentLines_app.
  replace (contentLines c) with (@nil str); [reflexivity|].
  unfold contentLines. rewrite split_single by exact Hline. simpl.
  destruct Hskip as [H|H].
  - apply trim_nil_iff in H. rewrite H. reflexivity.
  - rewrite H, andb_false_r. reflexivity.
Qed.

Lemma blank_and_comment_lines_skipped_witness :
  parseFlowchartContent
    (js "A-->B" ++ LF :: js "  %% to do" ++ LF :: js "B-->C") =
  parseFlowchartContent (js "A-->B" ++ LF :: js "B-->C").
Proof.
  apply (blank_and_comment_lines_skipped (js "A-->B") (js "  %% to do")
           (js "B-->C")).
  - vm_compute. intuition discriminate.
  - right. reflexivity.
Defined.

Import SVGRenderer.

Lemma findNode_some (graph : Graph.t) (id : str) :
  In id (map GraphNode.id (Graph.nodes graph)) ->
  exists n, findNode graph id = Some n /\ In n (Graph.nodes graph).
Proof.
  unfold findNode. induction (Graph.nodes graph) as [|n nodes IH]; simpl;
    [intros []|].
  intros [H|H].
  - rewrite H, eqb_refl. eauto.
  - destruct (JsString.eqb (GraphNode.id n) id); [eauto|].
    destruct (IH H) as (m & Hm & Hin). eauto.
Qed.

Lemma fallback_ids (graph : Graph.t) :
  map GraphNode.id (Graph.nodes (LayoutResult.graph (fallbackLayout graph))) =
  map GraphNode.id (Graph.nodes graph).
Proof.
  unfold fallbackLayout. simpl. generalize 0%nat.
  induction (Graph.nodes graph) as [|n nodes IH]; simpl; intros i;
    [reflexivity|]. rewrite IH. reflexivity.
Qed.

Lemma fallback_positions (graph : Graph.t) (n : GraphNode.t) :
  In n (Graph.nodes (LayoutResult.graph (fallbackLayout graph))) ->
  exists p, GraphNode.position n = Some p.
Proof.
  intros H. apply In_nth_error in H. destruct H as (i & Hi).
  destruct (fallback_nth graph i n Hi) as (_ & Hp & _). eauto.
Qed.

(** X24.  From the text to the screen on the fallback path: for a graph
    that [parse] returned, the renderer's edge guard lets every edge of
    the fallback layout through, drawing it between the positions of two
    nodes of the layout that carry the ids of its endpoints. *)
Theorem parsed_edges_drawn_after_fallback (mermaidCode : str) (g : Graph.t) :
  ParseResult.graph (parse mermaidCode) = Some g ->
  let laidOut := LayoutResult.graph (fallbackLayout g) in
  Forall (fun edge =>
            exists f t pf pt,
              renderEdgeLine laidOut edge = Some (pf, pt) /\
              In f (Graph.nodes laidOut) /\ In t (Graph.nodes laidOut) /\
              GraphNode.id f = GraphEdge.from edge /\
              GraphNode.id t = GraphEdge.to edge /\
              GraphNode.position f = Some pf /\
              GraphNode.position t = Some pt)
         (Graph.edges laidOut).
Proof.
  intros Hparse laidOut. apply parse_graph in Hparse.
  destruct (runLines_wellFormed (contentLines (cleanMermaidCode mermaidCode)))
    as [Hid Hedges].
  assert (Hends : forall e, In e (Graph.edges g) ->
                            In (GraphEdge.from e) (map GraphNode.id (Graph.nodes laidOut)) /\
                            In (GraphEdge.to e) (map GraphNode.id (Graph.nodes laidOut))).
  { intros e He. subst laidOut. rewrite fallback_ids. subst g. simpl in *.
    destruct (Hedges e He) as [Hf Ht].
    destruct (registered_node _ _ Hid Hf) as (nf & Hnf & <-).
    destruct (registered_node _ _ Hid Ht) as (nt & Hnt & <-).
    split; apply in_map; assumption. }
  apply Forall_forall. intros e He.
  change (Graph.edges laidOut) with (Graph.edges g) in He.
  destruct (Hends e He) as [Hf Ht].
  destruct (findNode_some laidOut _ Hf) as (f & Hff & Hfin).
  destruct (findNode_some laidOut _ Ht) as (t & Hft & Htin).
  destruct (fallback_positions g f Hfin) as (pf & Hpf).
  destruct (fallback_positions g t Htin) as (pt & Hpt).
  exists f, t, pf, pt. unfold renderEdgeLine. rewrite Hff, Hft, Hpf, Hpt.
  repeat split; auto.
  - unfold findNode in Hff. apply find_some in Hff.
    apply eqb_eq. apply Hff.
  - unfold findNode in Hft. apply find_some in Hft.
    apply eqb_eq. apply Hft.
Qed.

Lemma parsed_edges_drawn_after_fallback_witness :
  exists g,
    ParseResult.graph (parse sampleCode) = Some g /\
    Forall (fun edge =>
              exists f t pf pt,
                renderEdgeLine (LayoutResult.graph (fallbackLayout g)) edge
                  = Some (pf, pt) /\
                In f (Graph.nodes (LayoutResult.graph (fallbackLayout g))) /\
                In t (Graph.nodes (LayoutResult.graph (fallbackLayout g))) /\
                GraphNode.id f = GraphEdge.from edge /\
                GraphNode.id t = GraphEdge.to edge /\
                GraphNode.position f = Some pf /\
                GraphNode.position t = Some pt)
           (Graph.edges (LayoutResult.graph (fallbackLayout g))).
Proof.
  eexists. split.
  - vm_compute. reflexivity.
  - apply (parsed_edges_drawn_after_fallback sampleCode).
    vm_compute. reflexivity.
Defined.

(* ================================================================== *)
(** * The default diagram *)

(** On the diagram the application starts with, the line [C --> E[End]] is
    consumed by the plain-edge pattern: E is registered as the default
    rectangle labelled 'E', and the label 'End' of its bracket form is
    lost, while the patterns with both bracket forms (line 2) and with a
    label before a bracketed target (lines 3 and 4) apply the target's
    bracket form. *)
Lemma default_diagram_loses_end :
  exists g,
    ParseResult.graph (parse defaultDiagram) = Some g /\
    map (fun n => (GraphNode.id n, GraphNode.label n, GraphNode.shape n))
        (Graph.nodes g) =
    [(js "A", js "Start", rectangle); (js "B", js "Decision", diamond);
     (js "C", js "Process A", rectangle); (js "D", js "Process B", rectangle);
     (js "E", js "E", rectangle)] /\
    parseNodeDefinition (js "E") (js "[End]") =
      GraphNode.mk (js "E") (js "End") rectangle None None None None.
Proof.
  eexists. split; [vm_compute; reflexivity|]. split; reflexivity.
Qed.
